(** * Olric: the table-chain storage engine and the advisory lock protocol

    A shallow embedding of [internal/kvstore/kvstore.go] (module [kvstore])
    and of [internal/dmap/lock.go] (module [dmap]), with the properties the
    specification states about them.

    Conventions of the embedding.
    - Go's [int] is [Z]. The integers of the engine are byte counts of
      buffers that live in memory, far below [2^63], so the arithmetic is
      written without wrap-around.
    - A method with a pointer receiver takes the receiver's state and
      returns the new state next to its Go results.
    - A Go result pair [(v, err)] of the engine is a pair of options, [nil]
      is [None]; a collaborator of [lock.go] answers with a sum, a value
      or an error.
    - A [panic] and a loop that has not finished within the given number
      of iterations are results of their own, see [outcome]. *)

From Stdlib Require Import ZArith PrimFloat.
From Stdlib Require Import Strings.Byte.
From stdpp Require Import gmap strings list fin_maps.

Open Scope Z_scope.

(** What a call does: it returns, it panics, or (only for the loops that
    the source writes as [for { ... }]) it is still running when the
    iteration budget of the model is used up. *)
Inductive outcome (A : Type) : Type :=
| Returned (a : A)
| Panicked (msg : string)
| OutOfFuel.
Arguments Returned {A} a.
Arguments Panicked {A} msg.
Arguments OutOfFuel {A}.

#[global] Instance byte_eq_dec : EqDecision byte := Byte.byte_eq_dec.

(** Go's built-in [copy(dst, src)]: the first [min(len dst, len src)]
    elements of [dst] are overwritten, [dst] keeps its length. *)
Definition go_copy {A} (dst src : list A) : list A :=
  take (length dst) src ++ drop (length src) dst.

(** [copy(buf[off:], src)] for [0 <= off <= len buf]. *)
Definition write_at {A} (buf : list A) (off : nat) (src : list A) : list A :=
  take off buf ++ go_copy (drop off buf) src.

(** [float64(n)] for an [int] of magnitude below [2^53]: every partial
    result of the doubling is an integer below [2^53] and so exact. *)
Fixpoint float64_of_pos (p : positive) : float :=
  match p with
  | xH => 1%float
  | xO q => PrimFloat.mul 2%float (float64_of_pos q)
  | xI q => PrimFloat.add (PrimFloat.mul 2%float (float64_of_pos q)) 1%float
  end.

Definition float64_of_int (z : Z) : float :=
  match z with
  | Z0 => 0%float
  | Zpos p => float64_of_pos p
  | Zneg p => PrimFloat.opp (float64_of_pos p)
  end.

Module kvstore.

(** ** Constants and errors *)

#[warnings="-inexact-float"]
Definition maxGarbageRatio : float := 0.40%float.

(** [1 << 16] *)
Definition minimumSize : Z := Z.shiftl 1 16.

(** The error values the engine handles: [errNotEnoughSpace] of the table,
    [storage.ErrFragmented], [storage.ErrKeyNotFound]; [ErrOther] stands
    for any other error value (an options lookup, msgpack). *)
Inductive error : Type :=
| errNotEnoughSpace
| ErrFragmented
| ErrKeyNotFound
| ErrOther (msg : string).

#[global] Instance error_eq_dec : EqDecision error.
Proof. solve_decision. Defined.

(** ** Data model *)

(** The fields of [table] are the ones [Export] and [Import] read and
    write; [hkeys] is a [map[uint64]int]. *)
Record table : Type := mkTable {
  hkeys : gmap Z Z;
  memory : list byte;
  offset : Z;
  allocated : Z;
  inuse : Z;
  garbage : Z
}.

(** [storage.Options], used by the engine as a map from option names to
    values; the engine reads and writes the [int] stored at ["TableSize"]. *)
Record KVStore : Type := mkKVStore {
  tables : list table;
  options : gmap string Z
}.

Definition with_tables (kv : KVStore) (ts : list table) : KVStore :=
  {| tables := ts; options := options kv |}.

Record transport : Type := mkTransport {
  HKeys : gmap Z Z;
  Memory : list byte;
  Offset : Z;
  Allocated : Z;
  Inuse_ : Z;
  Garbage : Z
}.

(** ** Collaborators that are not part of the sources *)

(** Modelled from the spec: the entry frame. [entry.go] and [table.go] are
    not among the sources; the specification fixes that an entry is stored
    as a length-prefixed, self-describing frame. [Encode] builds the frame,
    [Decode] reads the entry of the frame that starts a slice of memory and
    [frame_len] reads that frame's total length. *)
Class EntryCodec (Entry : Type) : Type := {
  Encode : Entry → list byte;
  Decode : list byte → Entry;
  frame_len : list byte → Z
}.

(** Self-describing: what follows a frame does not change how it reads. *)
Class EntryCodecLaws (Entry : Type) `{!EntryCodec Entry} : Prop := {
  Decode_Encode : ∀ (e : Entry) rest, Decode (Encode e ++ rest) = e;
  frame_len_Encode : ∀ (e : Entry) rest,
    frame_len (Encode e ++ rest) = Z.of_nat (length (Encode e))
}.

(** [msgpack.Marshal] and [msgpack.Unmarshal] of the vmihailenco library,
    at the type [transport]. Marshalling a struct of a map, a byte slice
    and integers does not fail. *)
Class Msgpack : Type := {
  Marshal : transport → list byte;
  Unmarshal : list byte → transport + error
}.

Class MsgpackLaws `{!Msgpack} : Prop := {
  Unmarshal_Marshal : ∀ tr, Unmarshal (Marshal tr) = inl tr
}.

(** ** The table *)

(** Modelled from the spec: [newTable(size)] of the missing [table.go]: a
    table with a zeroed buffer of [size] bytes, an empty index and all
    counters at zero. *)
Definition newTable (size : Z) : table :=
  {| hkeys := ∅;
     memory := replicate (Z.to_nat size) "000"%byte;
     offset := 0;
     allocated := size;
     inuse := 0;
     garbage := 0 |}.

(** The other methods of the missing [table.go] that the engine calls:
    [putRaw], [getRaw], [getTTL], [getKey] and [updateTTL]. The engine's
    own loops are all that is said about them here, so they are taken as
    they come. *)
Class RawTableOps (Entry : Type) : Type := {
  t_putRaw : Z → list byte → table → table * option error;
  t_getRaw : Z → table → list byte * bool;
  t_getTTL : Z → table → Z * bool;
  t_getKey : Z → table → string * bool;
  t_updateTTL : Z → Entry → table → table * bool
}.

(** What [Range] and [MatchOnKey] use besides: the order in which Go's
    [range] walks a map, which the language leaves open ([range_order i m]
    is the order of the walk of the index [m] of table [i]); [t.getRawKey]
    of the missing [table.go]; and [regexp.Compile] and [Match] of the
    standard library. *)
Class Walk : Type := {
  range_order : nat → gmap Z Z → list Z;
  t_getRawKey : Z → table → list byte * bool;
  Regexp : Type;
  regexp_Compile : string → Regexp + error;
  regexp_Match : Regexp → list byte → bool
}.

(** A walk of a map meets every key once. *)
Class WalkLaws `{!Walk} : Prop := {
  range_order_keys : ∀ i (m : gmap Z Z), range_order i m ≡ₚ (map_to_list m).*1
}.

(** The index of the table has the hkey. *)
Definition holds (hkey : Z) (t : table) : Prop := is_Some (hkeys t !! hkey).

(** The slice [t.memory[off:]]. *)
Definition frame_at (t : table) (off : Z) : list byte :=
  drop (Z.to_nat off) (memory t).

Section Engine.
Context {Entry : Type} `{!EntryCodec Entry} `{!Msgpack} `{!RawTableOps Entry}.

(** Modelled from the spec: [table.get] of the missing [table.go]: "if
    present, decode and return (entry, false); if absent, return (None,
    true), meaning check older tables". *)
Definition t_get (hkey : Z) (t : table) : option Entry * bool :=
  match hkeys t !! hkey with
  | Some off => (Some (Decode (frame_at t off)), false)
  | None => (None, true)
  end.

(** Modelled from the spec: [table.delete] of the missing [table.go]: "if
    present, remove index entry, increment garbage by the entry's length,
    decrement inuse; return false. If absent, return true". *)
Definition t_delete (hkey : Z) (t : table) : table * bool :=
  match hkeys t !! hkey with
  | Some off =>
      let n := frame_len (frame_at t off) in
      ({| hkeys := delete hkey (hkeys t);
          memory := memory t;
          offset := offset t;
          allocated := allocated t;
          inuse := inuse t - n;
          garbage := garbage t + n |}, false)
  | None => (t, true)
  end.

(** Modelled from the spec: [table.put] of the missing [table.go]: "if
    offset + len(entry) > allocated fail with NotEnoughSpace. Otherwise, if
    hkey already present, look up its prior offset, add the prior entry's
    length to garbage, remove the old index entry. Append the encoded entry
    at offset, record hkeys[hkey] = offset_before_append, advance offset and
    inuse by the encoded length". *)
Definition t_put (hkey : Z) (value : Entry) (t : table) : table * option error :=
  let frame := Encode value in
  let n := Z.of_nat (length frame) in
  if allocated t <? offset t + n then (t, Some errNotEnoughSpace)
  else
    let t1 := fst (t_delete hkey t) in
    ({| hkeys := <[hkey := offset t]> (hkeys t1);
        memory := write_at (memory t) (Z.to_nat (offset t)) frame;
        offset := offset t + n;
        allocated := allocated t;
        inuse := inuse t1 + n;
        garbage := garbage t1 |}, None).

(** ** The engine *)

Definition DefaultOptions : gmap string Z :=
  <["TableSize" := minimumSize]> ∅.

Definition New (opts : gmap string Z) : option KVStore * option error :=
  match opts !! "TableSize" with
  | None => (None, Some (ErrOther "option not found"))
  | Some size =>
      let kv := {| tables := []; options := opts |} in
      let t := newTable size in
      (Some (with_tables kv (tables kv ++ [t])), None)
  end.

Definition Fork (kv : KVStore) : option KVStore * option error :=
  New (options kv).

Definition Inuse (kv : KVStore) : Z :=
  fold_left (λ total t, total + inuse t) (tables kv) 0.

Definition Len (kv : KVStore) : Z :=
  fold_left (λ total t, total + Z.of_nat (size (hkeys t))) (tables kv) 0.

Definition Stats (kv : KVStore) : gmap string Z :=
  fold_left
    (λ (stats : gmap string Z) t,
       let s1 := <["allocated" := default 0 (stats !! "allocated") + allocated t]> stats in
       let s2 := <["inuse" := default 0 (s1 !! "inuse") + inuse t]> s1 in
       <["garbage" := default 0 (s2 !! "garbage") + garbage t]> s2)
    (tables kv)
    (<["garbage" := 0]> (<["inuse" := 0]> (<["allocated" := 0]> ∅))).

Definition NumTables (kv : KVStore) : Z := Z.of_nat (length (tables kv)).

Definition tables_empty (kv : KVStore) : bool :=
  Nat.eqb (length (tables kv)) 0.

(** The loop of [Put]. One unit of fuel is one iteration; [res] is the
    local variable of the same name. *)
Fixpoint Put_loop (fuel : nat) (kv : KVStore) (hkey : Z) (value : Entry)
    (res : option error) : outcome (KVStore * option error) :=
  match fuel with
  | O => OutOfFuel
  | S fuel' =>
      let i := (length (tables kv) - 1)%nat in
      match tables kv !! i with
      | None => Panicked "index out of range"
      | Some t =>
          let '(t', err) := t_put hkey value t in
          let kv1 := with_tables kv (<[i := t']> (tables kv)) in
          match err with
          | Some errNotEnoughSpace =>
              let nt := newTable (Inuse kv1 * 2) in
              let kv2 := with_tables kv1 (tables kv1 ++ [nt]) in
              Put_loop fuel' kv2 hkey value (Some ErrFragmented)
          | Some e => Returned (kv1, Some e)
          | None => Returned (kv1, res)
          end
      end
  end.

Definition Put (fuel : nat) (kv : KVStore) (hkey : Z) (value : Entry)
    : outcome (KVStore * option error) :=
  if tables_empty kv then Panicked "tables cannot be empty"
  else Put_loop fuel kv hkey value None.

(** The loop [for i := len(kv.tables) - 1; i >= 0; i--] of the readers:
    [n] is [i + 1], [getter] is the table method the reader calls and
    [notfound] what the reader returns after the loop. *)
Fixpoint scan_tables {A} (getter : table → A * bool) (notfound : A)
    (ts : list table) (n : nat) : outcome (A * option error) :=
  match n with
  | O => Returned (notfound, Some ErrKeyNotFound)
  | S i =>
      match ts !! i with
      | None => Panicked "index out of range"
      | Some t =>
          let '(res, prev) := getter t in
          if prev then scan_tables getter notfound ts i
          else Returned (res, None)
      end
  end.

Definition Get (kv : KVStore) (hkey : Z) : outcome (option Entry * option error) :=
  if tables_empty kv then Panicked "tables cannot be empty"
  else scan_tables (t_get hkey) None (tables kv) (length (tables kv)).

(** The deletion loop of [Delete]; [n] is [i + 1]. *)
Fixpoint Delete_loop (ts : list table) (hkey : Z) (n : nat) : outcome (list table) :=
  match n with
  | O => Returned ts
  | S i =>
      match ts !! i with
      | None => Panicked "index out of range"
      | Some t =>
          let '(t', prev) := t_delete hkey t in
          let ts' := <[i := t']> ts in
          if prev then Delete_loop ts' hkey i
          else Returned ts'
      end
  end.

(** [float64(t.allocated)*maxGarbageRatio <= float64(t.garbage)] *)
Definition garbage_ratio_reached (t : table) : bool :=
  PrimFloat.leb (PrimFloat.mul (float64_of_int (allocated t)) maxGarbageRatio)
                (float64_of_int (garbage t)).

Definition Delete (kv : KVStore) (hkey : Z) : outcome (KVStore * option error) :=
  if tables_empty kv then Panicked "tables cannot be empty"
  else
    match Delete_loop (tables kv) hkey (length (tables kv)) with
    | Panicked msg => Panicked msg
    | OutOfFuel => OutOfFuel
    | Returned ts =>
        let kv1 := with_tables kv ts in
        if negb (Nat.eqb (length (tables kv1)) 1) then Returned (kv1, None)
        else
          match tables kv1 !! 0%nat with
          | None => Panicked "index out of range"
          | Some t =>
              if garbage_ratio_reached t then
                let nt := newTable (Inuse kv1 * 2) in
                Returned (with_tables kv1 (tables kv1 ++ [nt]), Some ErrFragmented)
              else Returned (kv1, None)
          end
    end.

(** [Export]. [t.memory[:t.offset]] panics outside [0 <= offset <= cap]. *)
Definition Export (kv : KVStore) : outcome (option (list byte) * option error) :=
  if negb (Nat.eqb (length (tables kv)) 1) then Returned (None, Some ErrFragmented)
  else
    match tables kv !! 0%nat with
    | None => Panicked "index out of range"
    | Some t =>
        if (offset t + 1 <? 0) then Panicked "makeslice: len out of range"
        else if (offset t <? 0) || (Z.of_nat (length (memory t)) <? offset t)
        then Panicked "slice bounds out of range"
        else
          let tr := {| HKeys := hkeys t;
                       Memory := go_copy (replicate (Z.to_nat (offset t + 1)) "000"%byte)
                                         (take (Z.to_nat (offset t)) (memory t));
                       Offset := offset t;
                       Allocated := allocated t;
                       Inuse_ := inuse t;
                       Garbage := garbage t |} in
          Returned (Some (Marshal tr), None)
    end.

(** [Import]. [options.Copy()] followed by [options.Add("TableSize", ...)]
    leaves the receiver's options as they are. *)
Definition Import (kv : KVStore) (data : list byte)
    : outcome (option KVStore * option error) :=
  match Unmarshal data with
  | inr err => Returned (None, Some err)
  | inl tr =>
      let opts := <["TableSize" := Allocated tr]> (options kv) in
      match New opts with
      | (Some fresh, None) =>
          match tables fresh !! 0%nat with
          | None => Panicked "index out of range"
          | Some t =>
              let t' := {| hkeys := HKeys tr;
                           memory := go_copy (memory t) (Memory tr);
                           offset := Offset tr;
                           allocated := allocated t;
                           inuse := Inuse_ tr;
                           garbage := Garbage tr |} in
              Returned (Some (with_tables fresh (<[0%nat := t']> (tables fresh))), None)
          end
      | (_, err) => Returned (None, err)
      end
  end.

(** The table that [Import] builds from what [Export] wrote for [t]. *)
Definition imported (t : table) : table :=
  {| hkeys := hkeys t;
     memory := go_copy (replicate (Z.to_nat (allocated t)) "000"%byte)
                       (take (Z.to_nat (offset t)) (memory t) ++ ["000"%byte]);
     offset := offset t;
     allocated := allocated t;
     inuse := inuse t;
     garbage := garbage t |}.

(** The loop of [PutRaw], the same as that of [Put] around [t.putRaw]. *)
Fixpoint PutRaw_loop (fuel : nat) (kv : KVStore) (hkey : Z) (value : list byte)
    (res : option error) : outcome (KVStore * option error) :=
  match fuel with
  | O => OutOfFuel
  | S fuel' =>
      let i := (length (tables kv) - 1)%nat in
      match tables kv !! i with
      | None => Panicked "index out of range"
      | Some t =>
          let '(t', err) := t_putRaw hkey value t in
          let kv1 := with_tables kv (<[i := t']> (tables kv)) in
          match err with
          | Some errNotEnoughSpace =>
              let nt := newTable (Inuse kv1 * 2) in
              let kv2 := with_tables kv1 (tables kv1 ++ [nt]) in
              PutRaw_loop fuel' kv2 hkey value (Some ErrFragmented)
          | Some e => Returned (kv1, Some e)
          | None => Returned (kv1, res)
          end
      end
  end.

Definition PutRaw (fuel : nat) (kv : KVStore) (hkey : Z) (value : list byte)
    : outcome (KVStore * option error) :=
  if tables_empty kv then Panicked "tables cannot be empty"
  else PutRaw_loop fuel kv hkey value None.

Definition GetRaw (kv : KVStore) (hkey : Z) : outcome (list byte * option error) :=
  if tables_empty kv then Panicked "tables cannot be empty"
  else scan_tables (t_getRaw hkey) [] (tables kv) (length (tables kv)).

Definition GetTTL (kv : KVStore) (hkey : Z) : outcome (Z * option error) :=
  if tables_empty kv then Panicked "tables cannot be empty"
  else scan_tables (t_getTTL hkey) 0 (tables kv) (length (tables kv)).

Definition GetKey (kv : KVStore) (hkey : Z) : outcome (string * option error) :=
  if tables_empty kv then Panicked "tables cannot be empty"
  else scan_tables (t_getKey hkey) EmptyString (tables kv) (length (tables kv)).

(** The loop of [UpdateTTL]; [n] is [i + 1]. *)
Fixpoint UpdateTTL_loop (ts : list table) (hkey : Z) (data : Entry) (n : nat)
    : outcome (list table * option error) :=
  match n with
  | O => Returned (ts, Some ErrKeyNotFound)
  | S i =>
      match ts !! i with
      | None => Panicked "index out of range"
      | Some t =>
          let '(t', prev) := t_updateTTL hkey data t in
          let ts' := <[i := t']> ts in
          if prev then UpdateTTL_loop ts' hkey data i
          else Returned (ts', None)
      end
  end.

Definition UpdateTTL (kv : KVStore) (hkey : Z) (data : Entry)
    : outcome (KVStore * option error) :=
  if tables_empty kv then Panicked "tables cannot be empty"
  else
    match UpdateTTL_loop (tables kv) hkey data (length (tables kv)) with
    | Returned (ts, err) => Returned (with_tables kv ts, err)
    | Panicked msg => Panicked msg
    | OutOfFuel => OutOfFuel
    end.

(** The loop of [Check]; [n] is [i + 1]. *)
Fixpoint Check_loop (ts : list table) (hkey : Z) (n : nat) : outcome bool :=
  match n with
  | O => Returned false
  | S i =>
      match ts !! i with
      | None => Panicked "index out of range"
      | Some t =>
          match hkeys t !! hkey with
          | Some _ => Returned true
          | None => Check_loop ts hkey i
          end
      end
  end.

Definition Check (kv : KVStore) (hkey : Z) : outcome bool :=
  if tables_empty kv then Panicked "tables cannot be empty"
  else Check_loop (tables kv) hkey (length (tables kv)).

(** ** Engine states that the methods produce *)

(** The states an engine goes through: it is made by [New], [Fork] or
    [Import] and then changed by [Put], [PutRaw], [Delete] and [UpdateTTL].
    The remaining methods ([Get], [GetRaw], [GetTTL], [GetKey], [Check],
    [Len], [Stats], [NumTables], [Inuse], [Export], and [Range] and
    [MatchOnKey], whose callbacks see entries only) do not assign to the
    chain or write to a table. *)
Inductive reachable : KVStore → Prop :=
| reach_New opts kv :
    New opts = (Some kv, None) → reachable kv
| reach_Fork kv kv' :
    reachable kv → Fork kv = (Some kv', None) → reachable kv'
| reach_Import kv data kv' :
    reachable kv → Import kv data = Returned (Some kv', None) → reachable kv'
| reach_Put kv fuel hkey value kv' err :
    reachable kv → Put fuel kv hkey value = Returned (kv', err) → reachable kv'
| reach_PutRaw kv fuel hkey value kv' err :
    reachable kv → PutRaw fuel kv hkey value = Returned (kv', err) → reachable kv'
| reach_Delete kv hkey kv' err :
    reachable kv → Delete kv hkey = Returned (kv', err) → reachable kv'
| reach_UpdateTTL kv hkey data kv' err :
    reachable kv → UpdateTTL kv hkey data = Returned (kv', err) → reachable kv'.

(** ** The invariants of the data model *)

(** The bytes of the live entries of a table whose index holds [E]. *)
Definition live_bytes (E : gmap Z Entry) : Z :=
  map_fold (λ _ e total, Z.of_nat (length (Encode e)) + total) 0 E.

(** [table_rep t E]: the table [t] is in a state of the data model and
    holds the entries [E]: [inuse + garbage = offset <= allocated], the
    buffer has [allocated] bytes, [inuse] counts the live frames, and every
    offset of the index points to the frame of its entry inside the
    written part of the buffer. *)
Record table_rep (t : table) (E : gmap Z Entry) : Prop := {
  rep_offset : 0 ≤ offset t ≤ allocated t;
  rep_memory : Z.of_nat (length (memory t)) = allocated t;
  rep_counters : inuse t + garbage t = offset t;
  rep_inuse : inuse t = live_bytes E;
  rep_index : ∀ h, hkeys t !! h = None ↔ E !! h = None;
  rep_frames : ∀ h off e,
    hkeys t !! h = Some off → E !! h = Some e →
    0 ≤ off ∧ off + Z.of_nat (length (Encode e)) ≤ offset t ∧
    take (length (Encode e)) (frame_at t off) = Encode e
}.

Definition wf_table (t : table) : Prop := ∃ E, table_rep t E.

Definition wf (kv : KVStore) : Prop := Forall wf_table (tables kv).

(** ** Range and MatchOnKey *)

Section Iterators.
Context `{!Walk} {St : Type}.

(** The inner loop of [Range] over the keys of one table, in the order of
    the walk: [break] ends the walk of this table. The callback [f] is a
    closure; [St] is the state it keeps. *)
Fixpoint Range_keys (f : Z → option Entry → St → bool * St) (t : table)
    (keys : list Z) (s : St) : St :=
  match keys with
  | [] => s
  | hkey :: rest =>
      let '(entry, _) := t_get hkey t in
      let '(more, s') := f hkey entry s in
      if negb more then s' else Range_keys f t rest s'
  end.

(** The outer loop of [Range]; [n] is [i + 1]. *)
Fixpoint Range_loop (f : Z → option Entry → St → bool * St) (ts : list table)
    (n : nat) (s : St) : outcome St :=
  match n with
  | O => Returned s
  | S i =>
      match ts !! i with
      | None => Panicked "index out of range"
      | Some t => Range_loop f ts i (Range_keys f t (range_order i (hkeys t)) s)
      end
  end.

Definition Range (kv : KVStore) (f : Z → option Entry → St → bool * St) (s : St)
    : outcome St :=
  if tables_empty kv then Panicked "tables cannot be empty"
  else Range_loop f (tables kv) (length (tables kv)) s.

(** The inner loop of [MatchOnKey]; the first component says that [f]
    answered [false], on which [MatchOnKey] returns. *)
Fixpoint MatchOnKey_keys (r : Regexp) (f : Z → option Entry → St → bool * St)
    (t : table) (keys : list Z) (s : St) : bool * St :=
  match keys with
  | [] => (false, s)
  | hkey :: rest =>
      let '(key, _) := t_getRawKey hkey t in
      if negb (regexp_Match r key) then MatchOnKey_keys r f t rest s
      else
        let '(data, _) := t_get hkey t in
        let '(more, s') := f hkey data s in
        if negb more then (true, s') else MatchOnKey_keys r f t rest s'
  end.

(** The outer loop of [MatchOnKey]; [n] is [i + 1]. *)
Fixpoint MatchOnKey_loop (r : Regexp) (f : Z → option Entry → St → bool * St)
    (ts : list table) (n : nat) (s : St) : outcome (option error * St) :=
  match n with
  | O => Returned (None, s)
  | S i =>
      match ts !! i with
      | None => Panicked "index out of range"
      | Some t =>
          let '(stop, s') := MatchOnKey_keys r f t (range_order i (hkeys t)) s in
          if stop then Returned (None, s') else MatchOnKey_loop r f ts i s'
      end
  end.

Definition MatchOnKey (kv : KVStore) (expr : string)
    (f : Z → option Entry → St → bool * St) (s : St)
    : outcome (option error * St) :=
  if tables_empty kv then Panicked "tables cannot be empty"
  else
    match regexp_Compile expr with
    | inr err => Returned (Some err, s)
    | inl r => MatchOnKey_loop r f (tables kv) (length (tables kv)) s
    end.

End Iterators.

(** The hkeys in the order in which the two iterators come to them: the
    tables from the last to the first, each in the order of its walk. *)
Fixpoint walk `{!Walk} (ts : list table) (n : nat) : list (Z * table) :=
  match n with
  | O => []
  | S i =>
      match ts !! i with
      | None => []
      | Some t => map (λ hkey, (hkey, t)) (range_order i (hkeys t)) ++ walk ts i
      end
  end.

(** The first hkey of the walk of each table that has one, the tables
    from the last to the first. *)
Fixpoint first_keys `{!Walk} (ts : list table) (n : nat) : list (Z * table) :=
  match n with
  | O => []
  | S i =>
      match ts !! i with
      | None => []
      | Some t => map (λ hkey, (hkey, t)) (take 1 (range_order i (hkeys t)))
                  ++ first_keys ts i
      end
  end.

(** Calling [f] on the hkeys of a list in turn, each with the entry that
    its table has for it, until [f] answers [false]. *)
Fixpoint feed {St : Type} (f : Z → option Entry → St → bool * St)
    (l : list (Z * table)) (s : St) : St :=
  match l with
  | [] => s
  | (hkey, t) :: rest =>
      let '(more, s') := f hkey (fst (t_get hkey t)) s in
      if more then feed f rest s' else s'
  end.

(** The raw key stored for the hkey matches the expression. *)
Definition matching `{!Walk} (r : Regexp) (p : Z * table) : bool :=
  regexp_Match r (fst (t_getRawKey (fst p) (snd p))).

(** The sum of a counter over the tables, as [Stats] and [Inuse] add it up. *)
Definition total (counter : table → Z) (ts : list table) : Z :=
  fold_left (λ sum t, sum + counter t) ts 0.

(** ** What the engine answers, seen as maps *)

(** The entry that a chain holding the entries [Es] (the oldest table
    first) answers for an hkey: that of the newest table that has one. *)
Definition newest_entry (Es : list (gmap Z Entry)) (hkey : Z) : option Entry :=
  fold_left (λ found E, match E !! hkey with Some e => Some e | None => found end)
            Es None.

(** The result of [Get] for what the chain answers. *)
Definition answer (found : option Entry) : option Entry * option error :=
  match found with
  | Some e => (Some e, None)
  | None => (None, Some ErrKeyNotFound)
  end.

(** ** The states an engine goes through *)

(** [evolves kv kv']: the methods of [kvstore.go] that write ([Put],
    [PutRaw], [Delete], [UpdateTTL]) take the engine from [kv] to [kv']. *)
Inductive evolves : KVStore → KVStore → Prop :=
| evolves_refl kv : evolves kv kv
| evolves_Put kv fuel hkey value kv1 err kv2 :
    Put fuel kv hkey value = Returned (kv1, err) → evolves kv1 kv2 → evolves kv kv2
| evolves_PutRaw kv fuel hkey value kv1 err kv2 :
    PutRaw fuel kv hkey value = Returned (kv1, err) → evolves kv1 kv2 → evolves kv kv2
| evolves_Delete kv hkey kv1 err kv2 :
    Delete kv hkey = Returned (kv1, err) → evolves kv1 kv2 → evolves kv kv2
| evolves_UpdateTTL kv hkey data kv1 err kv2 :
    UpdateTTL kv hkey data = Returned (kv1, err) → evolves kv1 kv2 → evolves kv kv2.

End Engine.

End kvstore.

Module dmap.

(** ** Errors and values *)

(** [ErrLockNotAcquired] and [ErrNoSuchLock] of [lock.go], [ErrKeyNotFound]
    and [ErrKeyFound] of the package, the errors of [fmt.Errorf]: without
    [%w] ([ErrOther], also any error of a collaborator) and with it
    ([ErrWrapped]). *)
Inductive error : Type :=
| ErrKeyNotFound
| ErrKeyFound
| ErrLockNotAcquired
| ErrNoSuchLock
| ErrOther (msg : string)
| ErrWrapped (msg : string) (inner : error).

#[global] Instance error_eq_dec : EqDecision error.
Proof. solve_decision. Defined.

(** The opcodes of [protocol] that [lock.go] names. *)
Inductive OpCode : Type := OpPutIf | OpPutIfEx | OpUnlock.

#[global] Instance OpCode_eq_dec : EqDecision OpCode.
Proof. solve_decision. Defined.

(** Modelled from the spec: the conditions of a put ("Conditions: Always,
    IfNotFound, IfFound"); the constant [IfNotFound] is declared outside
    [lock.go]. *)
Inductive condition : Type := Always | IfNotFound | IfFound.

#[global] Instance condition_eq_dec : EqDecision condition.
Proof. solve_decision. Defined.

(** Modelled from the spec: [nilTimeout], declared outside [lock.go]: "a
    zero TTL means no expiry (denoted nilTimeout)". A [time.Duration] is a
    number of nanoseconds. *)
Definition nilTimeout : Z := 0.

(** A value of type [interface{}], as [unmarshalValue] returns it. *)
Inductive GoValue : Type :=
| VBytes (b : list byte)
| VString (s : string)
| VInt (n : Z).

(** What [lock.go] uses of a [storage.Entry]: its [Value()]. *)
Record Entry : Type := mkEntry {
  Key : string;
  Value : list byte;
  TTL : Z;
  Timestamp : Z
}.

Record DMap : Type := mkDMap { name : string }.

Record LockContext : Type := mkLockContext {
  lc_name : string;
  lc_key : string;
  lc_token : list byte;
  lc_dm : DMap
}.

(** The three channels of the [select] in [tryLock]. *)
Inductive SelectCase : Type := TimerC | CtxDone | ServerCtxDone.

(** ** Collaborators *)

(** What [lock.go] calls and does not define, over the state [W] of the
    node and of the world around it: the fine-grained locker and the
    logger of the service, [get], [unmarshalValue], [deleteKey],
    [prepareAndSerialize] and [put] of the DMap, [rand.Read], the context
    with its deadline and the [select] over the timer and the two
    contexts. [env] is the type of what [prepareAndSerialize] returns. *)
Class Service (W env : Type) : Type := {
  locker_Lock : string → W → W;
  locker_Unlock : string → W → W * option error;
  log_Printf : string → string → error → W → W;
  dm_get : DMap → string → W → W * (Entry + error);
  dm_unmarshalValue : DMap → list byte → GoValue + error;
  dm_deleteKey : DMap → string → W → W * option error;
  rand_Read : nat → W → W * (list byte * option error);
  dm_prepareAndSerialize :
    DMap → OpCode → string → list byte → Z → condition → W → W * (env + error);
  dm_put : DMap → env → W → W * option error;
  context_WithTimeout : Z → W → W;
  select : W → W * SelectCase
}.

Section Lock.
Context {W env : Type} `{!Service W env}.

(** ** unlockKey *)





(** ** tryLock and lockKey *)

(** The loop [LOOP: for { ... select ... }] of [tryLock]. *)
Fixpoint tryLock_loop (fuel : nat) (dm : DMap) (e : env) (w : W)
    : outcome (option error) * W :=
  match fuel with
  | O => (OutOfFuel, w)
  | S fuel' =>
      let '(w1, c) := select w in
      match c with
      | TimerC =>
          let '(w2, err) := dm_put dm e w1 in
          match err with
          | Some err' =>
              if decide (err' = ErrKeyFound) then tryLock_loop fuel' dm e w2
              else (Returned (Some err'), w2)
          | None => (Returned None, w2)
          end
      | CtxDone => (Returned (Some ErrLockNotAcquired), w1)
      | ServerCtxDone => (Returned (Some (ErrOther "server is gone")), w1)
      end
  end.

Definition tryLock (fuel : nat) (dm : DMap) (e : env) (deadline : Z) (w : W)
    : outcome (option error) * W :=
  let '(w1, err) := dm_put dm e w in
  match err with
  | None => (Returned None, w1)
  | Some err' =>
      if decide (err' = ErrKeyFound)
      then tryLock_loop fuel dm e (context_WithTimeout deadline w1)
      else (Returned (Some err'), w1)
  end.

Definition lockKey (fuel : nat) (dm : DMap) (opcode : OpCode) (key : string)
    (timeout deadline : Z) (w : W)
    : outcome (option LockContext * option error) * W :=
  let '(w1, (read, rerr)) := rand_Read 16 w in
  let token := go_copy (replicate 16 "000"%byte) read in
  match rerr with
  | Some err => (Returned (None, Some err), w1)
  | None =>
      let '(w2, r) := dm_prepareAndSerialize dm opcode key token timeout IfNotFound w1 in
      match r with
      | inr err => (Returned (None, Some err), w2)
      | inl e =>
          let '(ret, w3) := tryLock fuel dm e deadline w2 in
          match ret with
          | Returned (Some err) => (Returned (None, Some err), w3)
          | Returned None =>
              (Returned (Some {| lc_name := name dm;
                                 lc_key := key;
                                 lc_token := token;
                                 lc_dm := dm |}, None), w3)
          | Panicked msg => (Panicked msg, w3)
          | OutOfFuel => (OutOfFuel, w3)
          end
      end
  end.


Definition Lock (fuel : nat) (dm : DMap) (key : string) (deadline : Z) (w : W) :=
  lockKey fuel dm OpPutIf key nilTimeout deadline w.


End Lock.

End dmap.

(** * A node to run the lock protocol on *)

Module sample_node.
Import dmap.

(** What was asked of [prepareAndSerialize]. *)
Record request : Type := mkRequest {
  req_opcode : OpCode;
  req_key : string;
  req_value : list byte;
  req_timeout : Z;
  req_condition : condition
}.

(** The node keeps the values of the keys and the opcodes of the commands
    it was sent. *)
Record node : Type := mkNode {
  store : gmap string (list byte);
  commands : list OpCode
}.

(** A node that owns every key: [put] is the conditional put of the
    request on the store, [get] and [deleteKey] read and delete there, a
    value unmarshals to itself, the locker is free, [rand.Read] gives
    bytes 42 and the deadline has always passed. [seen] is what
    [prepareAndSerialize] makes of the opcode. *)
Definition service_with (seen : OpCode → OpCode) : Service node request := {|
  locker_Lock := λ _ w, w;
  locker_Unlock := λ _ w, (w, None);
  log_Printf := λ _ _ _ w, w;
  dm_get := λ dm key w,
    (w, match store w !! (name dm ++ key)%string with
        | Some v => inl (mkEntry key v 0 0)
        | None => inr ErrKeyNotFound
        end);
  dm_unmarshalValue := λ _ raw, inl (VBytes raw);
  dm_deleteKey := λ dm key w,
    (mkNode (delete (name dm ++ key)%string (store w)) (commands w), None);
  rand_Read := λ n w, (w, (replicate n "042"%byte, None));
  dm_prepareAndSerialize := λ _ opcode key value timeout cond w,
    (w, inl (mkRequest (seen opcode) key value timeout cond));
  dm_put := λ dm e w,
    let k := (name dm ++ req_key e)%string in
    let w' := mkNode (store w) (commands w ++ [req_opcode e]) in
    match req_condition e, store w !! k with
    | IfNotFound, Some _ => (w', Some ErrKeyFound)
    | IfFound, None => (w', Some ErrKeyNotFound)
    | _, _ => (mkNode (<[k := req_value e]> (store w)) (commands w'), None)
    end;
  context_WithTimeout := λ _ w, w;
  select := λ w, (w, CtxDone)
|}.

(** The node takes commands as they are named. *)
#[global] Instance service : Service node request := service_with id.


Definition locks : DMap := mkDMap "locks".

Definition idle : node := mkNode ∅ [].

(** The node after a lock on ["k"] was taken with a token of bytes 42. *)
Definition held : node := snd (Lock 1 locks "k" 1000 idle).

End sample_node.

(** * A concrete frame format and wire format

    The engine is generic in the frame format and in msgpack. To run it on
    concrete states, this module fixes a frame format that is
    self-describing and a serialization of [transport] that can be read
    back. *)

Module sample.
Import kvstore.

(** An entry is its payload. The frame holds every payload byte after a
    byte 1 and ends with a byte 0. *)
Fixpoint stuff (payload : list byte) : list byte :=
  match payload with
  | [] => ["000"%byte]
  | b :: rest => "001"%byte :: b :: stuff rest
  end.

Fixpoint unstuff (frame : list byte) : list byte :=
  match frame with
  | flag :: b :: rest =>
      if Byte.eqb flag "001"%byte then b :: unstuff rest else []
  | _ => []
  end.

#[global] Instance codec : EntryCodec (list byte) := {|
  Encode := stuff;
  Decode := unstuff;
  frame_len := λ frame, 2 * Z.of_nat (length (unstuff frame)) + 1
|}.

(** The wire format: the bits of the code that [Countable] gives the
    fields of [transport], one bit a byte. *)
#[global] Instance byte_countable : Countable byte :=
  inj_countable Byte.to_N Byte.of_N Byte.of_to_N.

Fixpoint bits (p : positive) : list byte :=
  match p with
  | xH => []
  | xO q => "000"%byte :: bits q
  | xI q => "001"%byte :: bits q
  end.

Fixpoint unbits (data : list byte) : positive :=
  match data with
  | [] => xH
  | b :: rest => if Byte.eqb b "000"%byte then xO (unbits rest) else xI (unbits rest)
  end.

Definition fields (tr : transport) : gmap Z Z * list byte * Z * Z * Z * Z :=
  (HKeys tr, Memory tr, Offset tr, Allocated tr, Inuse_ tr, Garbage tr).

Definition of_fields (f : gmap Z Z * list byte * Z * Z * Z * Z) : transport :=
  let '(h, m, o, a, i, g) := f in
  {| HKeys := h; Memory := m; Offset := o; Allocated := a; Inuse_ := i; Garbage := g |}.

#[global] Instance msgpack : Msgpack := {|
  Marshal := λ tr, bits (encode (fields tr));
  Unmarshal := λ data,
    match decode (unbits data) with
    | Some f => inl (of_fields f)
    | None => inr (ErrOther "msgpack: invalid code")
    end
|}.

(** Table methods for [PutRaw], [GetRaw], [GetTTL], [GetKey] and
    [UpdateTTL] to run with: [putRaw] stores nothing, the readers find
    nothing. *)
#[global] Instance raw_ops : RawTableOps (list byte) := {|
  t_putRaw := λ _ _ t, (t, None);
  t_getRaw := λ _ _, ([], true);
  t_getTTL := λ _ _, (0, true);
  t_getKey := λ _ _, (EmptyString, true);
  t_updateTTL := λ _ _ t, (t, true)
|}.

(** The state a call leaves, or the state it started from when it did not
    return. *)
Definition state_after (kv : KVStore) (r : outcome (KVStore * option error)) : KVStore :=
  match r with
  | Returned (kv', _) => kv'
  | _ => kv
  end.

Definition payload (n : Z) (b : byte) : list byte := replicate (Z.to_nat n) b.

(** An engine with the default options. *)
Definition fresh : KVStore :=
  default (mkKVStore [] ∅) (fst (New DefaultOptions)).

(** [fresh] after [Put(1, A)], [Put(2, B)] and [Put(1, A')], with payloads
    of 15000 bytes (frames of 30001 bytes): the third put does not fit the
    first table and goes to a second one. *)
Definition two_copies : KVStore :=
  let kv1 := state_after fresh (Put 2 fresh 1 (payload 15000 "065"%byte)) in
  let kv2 := state_after kv1 (Put 2 kv1 2 (payload 15000 "066"%byte)) in
  state_after kv2 (Put 2 kv2 1 (payload 15000 "097"%byte)).


(** A small engine: one empty table of 64 bytes. *)
Definition small_fresh : KVStore :=
  default (mkKVStore [] ∅) (fst (New (<["TableSize" := 64]> ∅))).

(** [small_fresh] after [Put(7, x)] with a payload of 3 bytes. *)
Definition small : KVStore :=
  state_after small_fresh (Put 2 small_fresh 7 (payload 3 "120"%byte)).

(** [small_fresh] after [Put(7, A)], [Put(8, B)] and [Put(7, A')], with
    frames of 21, 21 and 23 bytes: the third does not fit the 64 bytes and
    goes to a second table, so both tables hold hkey 7. *)
Definition small_two : KVStore :=
  let kv1 := state_after small_fresh (Put 2 small_fresh 7 (payload 10 "065"%byte)) in
  let kv2 := state_after kv1 (Put 2 kv1 8 (payload 10 "066"%byte)) in
  state_after kv2 (Put 2 kv2 7 (payload 11 "097"%byte)).

(** [small_fresh] after [Put(7, A)] and [Put(7, A')], with frames of 27
    bytes: one table, 27 of its 64 bytes garbage. *)
Definition small_garbage : KVStore :=
  let kv1 := state_after small_fresh (Put 2 small_fresh 7 (payload 13 "065"%byte)) in
  state_after kv1 (Put 2 kv1 7 (payload 13 "097"%byte)).

(** [small_garbage] after [Put(9, B)] with a frame of 27 bytes, which
    goes to a second table of 54 bytes. *)
Definition small_grown : KVStore :=
  state_after small_garbage (Put 2 small_garbage 9 (payload 13 "066"%byte)).

(** [small_garbage] after a third [Put] of hkey 7, which goes to a second
    table: both tables hold hkey 7. *)
Definition small_again : KVStore :=
  state_after small_garbage (Put 2 small_garbage 7 (payload 13 "067"%byte)).

(** The raw key of a one-digit hkey is its digit. *)
Definition digit (hkey : Z) : byte :=
  default "000"%byte (Byte.of_N (Z.to_N (48 + hkey))).

(** A walk in the order in which the index lists its keys; expressions
    that are literals, the empty one matching every key, and of which "("
    does not compile. *)
#[global] Instance walk_ops : Walk := {|
  range_order := λ _ m, (map_to_list m).*1;
  t_getRawKey := λ hkey t,
    match hkeys t !! hkey with
    | Some _ => ([digit hkey], false)
    | None => ([], true)
    end;
  Regexp := list byte;
  regexp_Compile := λ expr,
    if String.eqb expr "(" then inr (ErrOther "regexp: missing closing )")
    else inl (String.list_byte_of_string expr);
  regexp_Match := λ r key,
    match r with
    | [] => true
    | _ => bool_decide (r = key)
    end
|}.

End sample.

(** * Properties of the storage engine *)

Import kvstore.

Section EngineFacts.
Context {Entry : Type} `{!EntryCodec Entry} `{!Msgpack}.
Implicit Types (kv : KVStore) (t : table) (ts : list table) (hkey : Z).

(** ** The reader loop *)

Lemma scan_tables_skip {A} (getter : table → A * bool) (notfound : A) ts (k m : nat) :
  (∀ j, (k ≤ j < k + m)%nat → ∃ t, ts !! j = Some t ∧ snd (getter t) = true) →
  scan_tables getter notfound ts (k + m) = scan_tables getter notfound ts k.
Proof.
  induction m as [|m IH]; intros Hprev.
  - by rewrite Nat.add_0_r.
  - rewrite Nat.add_succ_r. cbn [scan_tables].
    destruct (Hprev (k + m)%nat) as (t & -> & Ht); [lia|].
    destruct (getter t) as [res prev]. cbn in Ht. subst prev.
    apply IH. intros j Hj. apply Hprev. lia.
Qed.

Lemma scan_tables_hit {A} (getter : table → A * bool) (notfound : A) older t newer res :
  Forall (λ u, snd (getter u) = true) newer →
  getter t = (res, false) →
  scan_tables getter notfound (older ++ t :: newer) (length (older ++ t :: newer))
  = Returned (res, None).
Proof.
  intros Hnewer Ht.
  replace (length (older ++ t :: newer)) with (S (length older) + length newer)%nat
    by (rewrite length_app; cbn; lia).
  rewrite scan_tables_skip.
  - cbn [scan_tables]. rewrite list_lookup_middle by done. by rewrite Ht.
  - intros j Hj.
    assert (∃ u, newer !! (j - S (length older))%nat = Some u) as [u Hu].
    { apply lookup_lt_is_Some_2. lia. }
    exists u. split.
    + rewrite lookup_app_r by lia.
      replace (j - length older)%nat with (S (j - S (length older))) by lia. done.
    + eapply (proj1 (Forall_lookup _ _) Hnewer); eauto.
Qed.

Lemma scan_tables_miss {A} (getter : table → A * bool) (notfound : A) ts :
  Forall (λ u, snd (getter u) = true) ts →
  scan_tables getter notfound ts (length ts) = Returned (notfound, Some ErrKeyNotFound).
Proof.
  intros Hall. change (length ts) with (0 + length ts)%nat.
  rewrite scan_tables_skip; [done|].
  intros j Hj. destruct (lookup_lt_is_Some_2 ts j) as [u Hu]; [lia|].
  exists u. split; [done|]. eapply (proj1 (Forall_lookup _ _) Hall); eauto.
Qed.

Lemma tables_empty_false kv : tables kv ≠ [] → tables_empty kv = false.
Proof. unfold tables_empty. destruct (tables kv); [done|]. by intros _. Qed.

(** C5: [Get] walks the chain from the last table to the first and answers
    with the entry of the first table that does not report "previous": a
    table is consulted only when every newer table reported "previous" (so
    of two tables holding the hkey the newer one answers), and when every
    table reports "previous" the answer is [ErrKeyNotFound]. *)
Theorem Get_newest_first kv hkey :
  tables kv ≠ [] →
  (∀ older t newer res,
      tables kv = older ++ t :: newer →
      Forall (λ u, snd (t_get hkey u) = true) newer →
      t_get hkey t = (res, false) →
      Get kv hkey = Returned (res, None))
  ∧ (Forall (λ u, snd (t_get hkey u) = true) (tables kv) →
      Get kv hkey = Returned (None, Some ErrKeyNotFound)).
Proof.
  intros Hne. unfold Get. rewrite tables_empty_false by done. split.
  - intros older t newer res Hts Hnewer Ht. rewrite Hts.
    by apply scan_tables_hit.
  - apply scan_tables_miss.
Qed.

(** ** Delete *)

Lemma Delete_loop_returns ts hkey (n : nat) :
  (n ≤ length ts)%nat →
  ∃ ts', Delete_loop ts hkey n = Returned ts' ∧ length ts' = length ts.
Proof.
  revert ts. induction n as [|i IH]; intros ts Hn; cbn [Delete_loop].
  - by exists ts.
  - destruct (lookup_lt_is_Some_2 ts i) as [t Ht]; [lia|]. rewrite Ht.
    destruct (t_delete hkey t) as [t' prev]. destruct prev.
    + destruct (IH (<[i:=t']> ts)) as (ts' & Hts' & Hlen).
      { rewrite length_insert. lia. }
      exists ts'. split; [done|]. by rewrite Hlen, length_insert.
    + eexists. split; [done|]. by rewrite length_insert.
Qed.

(** The garbage test at its threshold: 40 of 100 bytes pass and 39 do
    not; of 65536 bytes, 26215 pass and 26214 do not. *)
Lemma garbage_ratio_threshold :
  map (λ '(a, g), garbage_ratio_reached (mkTable ∅ [] 0 a 0 g))
      [(100, 40); (100, 39); (5, 2); (65536, 26215); (65536, 26214)]
  = [true; false; true; true; false].
Proof. vm_compute. reflexivity. Qed.



(** ** Export *)

Lemma go_copy_prefix {A} (src : list A) (pad : nat) (x : A) :
  go_copy (replicate (length src + pad) x) src = src ++ replicate pad x.
Proof.
  unfold go_copy. rewrite length_replicate.
  rewrite take_ge by lia. f_equal.
  rewrite drop_replicate. f_equal. lia.
Qed.

Lemma Export_Memory t :
  0 ≤ offset t ≤ Z.of_nat (length (memory t)) →
  go_copy (replicate (Z.to_nat (offset t + 1)) "000"%byte)
          (take (Z.to_nat (offset t)) (memory t))
  = take (Z.to_nat (offset t)) (memory t) ++ ["000"%byte].
Proof.
  intros Hoff.
  replace (Z.to_nat (offset t + 1))
    with (length (take (Z.to_nat (offset t)) (memory t)) + 1)%nat.
  - by rewrite go_copy_prefix.
  - rewrite length_take. lia.
Qed.

Lemma Export_returns kv t :
  tables kv = [t] →
  0 ≤ offset t ≤ Z.of_nat (length (memory t)) →
  Export kv =
    Returned (Some (Marshal {| HKeys := hkeys t;
                               Memory := take (Z.to_nat (offset t)) (memory t)
                                         ++ ["000"%byte];
                               Offset := offset t;
                               Allocated := allocated t;
                               Inuse_ := inuse t;
                               Garbage := garbage t |}), None).
Proof.
  intros Hts Hoff. unfold Export. rewrite Hts. cbn.
  destruct (Z.ltb_spec (offset t + 1) 0); [lia|].
  destruct (Z.ltb_spec (offset t) 0); [lia|].
  destruct (Z.ltb_spec (Z.of_nat (length (memory t))) (offset t)); [lia|].
  cbn. by rewrite Export_Memory.
Qed.

(** C8: [Export] returns [ErrFragmented] exactly when the chain does not
    have exactly one table; with exactly one table (in a state of the data
    model, [0 <= offset <= len(memory)]) it returns, without error, the
    msgpack encoding of the table's index, of the first [offset] bytes of
    its memory followed by one zero byte, and of its [offset], [allocated],
    [inuse] and [garbage]. *)
Theorem Export_single_table kv :
  ((∃ data, Export kv = Returned (data, Some ErrFragmented))
     ↔ length (tables kv) ≠ 1%nat)
  ∧ (∀ t, tables kv = [t] →
       0 ≤ offset t ≤ Z.of_nat (length (memory t)) →
       Export kv =
         Returned (Some (Marshal {| HKeys := hkeys t;
                                    Memory := take (Z.to_nat (offset t)) (memory t)
                                              ++ ["000"%byte];
                                    Offset := offset t;
                                    Allocated := allocated t;
                                    Inuse_ := inuse t;
                                    Garbage := garbage t |}), None)).
Proof.
  split.
  - unfold Export. destruct (Nat.eqb_spec (length (tables kv)) 1) as [Hlen|Hlen]; cbn [negb].
    + split; [|done]. intros [data Hex]. exfalso.
      destruct (tables kv !! 0%nat); [|done].
      repeat case_match; congruence.
    + split; [done|]. intros _. by eexists.
  - apply Export_returns.
Qed.

End EngineFacts.

(** * The table keeps the invariants of the data model *)

Section TableFacts.
Context {Entry : Type} `{!EntryCodec Entry} `{!EntryCodecLaws Entry}.
Implicit Types (t : table) (E : gmap Z Entry) (hkey : Z) (e : Entry).

Lemma live_bytes_insert E hkey e :
  E !! hkey = None →
  live_bytes (<[hkey:=e]> E) = Z.of_nat (length (Encode e)) + live_bytes E.
Proof.
  intros Hfresh. unfold live_bytes.
  rewrite map_fold_insert_L; [done| |done]. intros; lia.
Qed.

Lemma live_bytes_delete E hkey e :
  E !! hkey = Some e →
  live_bytes E = Z.of_nat (length (Encode e)) + live_bytes (delete hkey E).
Proof.
  intros Hin. unfold live_bytes.
  rewrite (map_fold_delete_L _ _ hkey e E); [done| |done]. intros; lia.
Qed.

Lemma live_bytes_nonneg E : 0 ≤ live_bytes E.
Proof.
  unfold live_bytes.
  apply (map_fold_weak_ind (λ total _, 0 ≤ total)); [done|]. intros; lia.
Qed.

Lemma length_go_copy {A} (dst src : list A) : length (go_copy dst src) = length dst.
Proof. unfold go_copy. rewrite length_app, length_take, length_drop. lia. Qed.

Lemma length_write_at {A} (buf : list A) (off : nat) src :
  length (write_at buf off src) = length buf.
Proof.
  unfold write_at. rewrite length_app, length_go_copy, length_take, length_drop. lia.
Qed.

Lemma take_write_at {A} (buf : list A) (off : nat) src :
  (off ≤ length buf)%nat → take off (write_at buf off src) = take off buf.
Proof.
  intros Hoff. unfold write_at.
  rewrite take_app_le by (rewrite length_take; lia).
  rewrite take_take. f_equal. lia.
Qed.

Lemma drop_write_at {A} (buf : list A) (off : nat) src :
  (off + length src ≤ length buf)%nat →
  drop off (write_at buf off src) = src ++ drop (off + length src) buf.
Proof.
  intros Hfit. unfold write_at.
  rewrite drop_app_length' by (rewrite length_take; lia).
  unfold go_copy. rewrite take_ge by (rewrite length_drop; lia).
  by rewrite drop_drop.
Qed.

(** Two buffers with the same first [k] elements hold the same slices
    inside that prefix. *)
Lemma take_drop_agree {A} (l1 l2 : list A) (k i n : nat) :
  take k l1 = take k l2 → (i + n ≤ k)%nat →
  take n (drop i l1) = take n (drop i l2).
Proof.
  intros Hpre Hin. rewrite !take_drop_commute.
  replace (take (i + n) l1) with (take (i + n) (take k l1))
    by (rewrite take_take; f_equal; lia).
  replace (take (i + n) l2) with (take (i + n) (take k l2))
    by (rewrite take_take; f_equal; lia).
  by rewrite Hpre.
Qed.

Lemma frame_at_Encode t off e :
  take (length (Encode e)) (frame_at t off) = Encode e →
  frame_at t off = Encode e ++ drop (length (Encode e)) (frame_at t off).
Proof. intros Hframe. rewrite <- Hframe at 1. by rewrite take_drop. Qed.

Lemma table_rep_newTable (size : Z) : 0 ≤ size → table_rep (newTable size) ∅.
Proof.
  intros Hsize. split; cbn; try done.
  rewrite length_replicate. lia.
Qed.

Lemma table_rep_get t E hkey :
  table_rep t E →
  t_get hkey t = (E !! hkey, bool_decide (E !! hkey = None)).
Proof.
  intros Hrep. unfold t_get.
  destruct (hkeys t !! hkey) as [off|] eqn:Hoff.
  - destruct (E !! hkey) as [e|] eqn:He.
    + destruct (rep_frames _ _ Hrep hkey off e Hoff He) as (_ & _ & Hframe).
      rewrite (frame_at_Encode _ _ _ Hframe), Decode_Encode. done.
    + apply (rep_index _ _ Hrep) in He. congruence.
  - apply (rep_index _ _ Hrep) in Hoff. by rewrite Hoff.
Qed.

Lemma table_rep_delete t E hkey :
  table_rep t E →
  table_rep (fst (t_delete hkey t)) (delete hkey E)
  ∧ snd (t_delete hkey t) = bool_decide (E !! hkey = None).
Proof.
  intros Hrep. unfold t_delete.
  destruct (hkeys t !! hkey) as [off|] eqn:Hoff.
  - destruct (E !! hkey) as [e|] eqn:He.
    2:{ apply (rep_index _ _ Hrep) in He. congruence. }
    destruct (rep_frames _ _ Hrep hkey off e Hoff He) as (Hoff0 & Hend & Hframe).
    rewrite (frame_at_Encode _ _ _ Hframe), frame_len_Encode.
    cbn [fst snd]. split; [|done].
    pose proof (live_bytes_delete E hkey e He) as Hlive.
    destruct Hrep as [Ho Hm Hc Hi Hx Hf].
    split; cbn; try done; try lia.
    + intros h. destruct (decide (h = hkey)) as [->|Hne].
      * by rewrite !lookup_delete_eq.
      * rewrite !lookup_delete_ne by done. apply Hx.
    + intros h off' e' Hh He'.
      destruct (decide (h = hkey)) as [->|Hne].
      * by rewrite lookup_delete_eq in Hh.
      * rewrite lookup_delete_ne in Hh by done.
        rewrite lookup_delete_ne in He' by done.
        apply (Hf h off' e' Hh He').
  - assert (E !! hkey = None) as He by (by apply (rep_index _ _ Hrep)).
    cbn [fst snd]. rewrite He. split; [|done].
    by rewrite delete_id.
Qed.

Lemma t_put_full t hkey e t' err :
  t_put hkey e t = (t', Some err) →
  t' = t ∧ err = errNotEnoughSpace
  ∧ allocated t < offset t + Z.of_nat (length (Encode e)).
Proof.
  unfold t_put. destruct (Z.ltb_spec (allocated t) (offset t + Z.of_nat (length (Encode e)))).
  - intros [= <- <-]. done.
  - intros [= _].
Qed.

Lemma t_put_fits t hkey e t' :
  t_put hkey e t = (t', None) →
  offset t + Z.of_nat (length (Encode e)) ≤ allocated t.
Proof.
  unfold t_put. destruct (Z.ltb_spec (allocated t) (offset t + Z.of_nat (length (Encode e)))).
  - intros [= _].
  - done.
Qed.

Lemma table_rep_put t E hkey e t' :
  table_rep t E →
  t_put hkey e t = (t', None) →
  table_rep t' (<[hkey:=e]> E).
Proof.
  intros Hrep Hput. pose proof (t_put_fits _ _ _ _ Hput) as Hfit.
  destruct (table_rep_delete t E hkey Hrep) as [Hrep1 _].
  assert (offset (fst (t_delete hkey t)) = offset t
          ∧ memory (fst (t_delete hkey t)) = memory t) as [Hoff1 Hmem1].
  { unfold t_delete. by destruct (hkeys t !! hkey). }
  unfold t_put in Hput.
  destruct (Z.ltb_spec (allocated t) (offset t + Z.of_nat (length (Encode e)))); [lia|].
  injection Hput as <-.
  set (t1 := fst (t_delete hkey t)) in *.
  destruct Hrep as [Ho Hm Hc Hi Hx Hf].
  destruct Hrep1 as [Ho1 Hm1 Hc1 Hi1 Hx1 Hf1].
  assert (Z.to_nat (offset t) + length (Encode e) ≤ length (memory t))%nat as Hroom by lia.
  split; cbn.
  - lia.
  - rewrite length_write_at. lia.
  - lia.
  - rewrite <- insert_delete_eq, live_bytes_insert by apply lookup_delete_eq. lia.
  - intros h. destruct (decide (h = hkey)) as [->|Hne].
    + by rewrite !lookup_insert_eq.
    + rewrite !lookup_insert_ne by done.
      specialize (Hx1 h). by rewrite lookup_delete_ne in Hx1 by done.
  - intros h off e' Hh He'. unfold frame_at. cbn.
    destruct (decide (h = hkey)) as [->|Hne].
    + rewrite lookup_insert_eq in Hh. rewrite lookup_insert_eq in He'.
      injection Hh as <-. injection He' as <-.
      split; [lia|]. split; [lia|].
      rewrite drop_write_at by lia. by rewrite take_app_length.
    + rewrite lookup_insert_ne in Hh by done.
      rewrite lookup_insert_ne in He' by done.
      specialize (Hf1 h off e'). rewrite lookup_delete_ne in Hf1 by done.
      destruct (Hf1 Hh He') as (Hoff0 & Hend & Hframe).
      split; [lia|]. split; [lia|].
      etrans; [|exact Hframe]. unfold frame_at. rewrite Hmem1. cbn [memory].
      apply (take_drop_agree _ _ (Z.to_nat (offset t))); [|lia].
      apply take_write_at. lia.
Qed.

End TableFacts.

(** * The engine keeps the invariants of the data model *)

Section EngineInvariants.
Context {Entry : Type} `{!EntryCodec Entry} `{!EntryCodecLaws Entry} `{!Msgpack}.
Implicit Types (kv : KVStore) (t : table) (ts : list table) (hkey : Z) (value : Entry).

Lemma with_tables_id kv : with_tables kv (tables kv) = kv.
Proof. by destruct kv. Qed.

Lemma last_table_decompose ts t :
  ts !! (length ts - 1)%nat = Some t → ∃ older, ts = older ++ [t].
Proof.
  intros Hlast. exists (take (length ts - 1) ts).
  pose proof (lookup_lt_Some _ _ _ Hlast) as Hlt.
  rewrite <- (take_drop_middle ts (length ts - 1) t Hlast) at 1.
  f_equal. f_equal. apply drop_ge. lia.
Qed.

Lemma fold_inuse_shift ts (a : Z) :
  fold_left (λ total t, total + inuse t) ts a
  = a + fold_left (λ total t, total + inuse t) ts 0.
Proof.
  revert a. induction ts as [|t ts IH]; intros a; cbn [fold_left]; [lia|].
  rewrite (IH (a + inuse t)), (IH (0 + inuse t)). lia.
Qed.

Lemma wf_table_inuse_nonneg t : wf_table t → 0 ≤ inuse t.
Proof. intros [E Hrep]. rewrite (rep_inuse _ _ Hrep). apply live_bytes_nonneg. Qed.

Lemma Inuse_nonneg kv : wf kv → 0 ≤ Inuse kv.
Proof.
  unfold wf, Inuse. induction 1 as [|t ts Ht _ IH]; cbn [fold_left]; [done|].
  rewrite fold_inuse_shift. pose proof (wf_table_inuse_nonneg t Ht). lia.
Qed.

Lemma wf_table_newTable (size : Z) : 0 ≤ size → wf_table (newTable size).
Proof. intros Hsize. exists ∅. by apply table_rep_newTable. Qed.

Lemma wf_New opts kv :
  New opts = (Some kv, None) → 0 ≤ default 0 (opts !! "TableSize") → wf kv.
Proof.
  unfold New. destruct (opts !! "TableSize") as [size|]; [|done].
  intros [= <-] Hsize. repeat constructor. by apply wf_table_newTable.
Qed.

Lemma wf_table_put t hkey value t' :
  wf_table t → t_put hkey value t = (t', None) →
  wf_table t' ∧ t_get hkey t' = (Some value, false).
Proof.
  intros [E Hrep] Hput.
  pose proof (table_rep_put _ _ _ _ _ Hrep Hput) as Hrep'.
  split; [by eexists|].
  by rewrite (table_rep_get _ _ _ Hrep'), lookup_insert_eq.
Qed.

Lemma wf_table_delete t hkey : wf_table t → wf_table (fst (t_delete hkey t)).
Proof.
  intros [E Hrep]. exists (delete hkey E). by apply table_rep_delete.
Qed.

(** What a run of the loop of [Put] that returns has done. *)
Lemma Put_loop_spec fuel : ∀ kv hkey value res kv' res',
  wf kv →
  Put_loop fuel kv hkey value res = Returned (kv', res') →
  wf kv' ∧ options kv' = options kv
  ∧ (length (tables kv) ≤ length (tables kv'))%nat
  ∧ (length (tables kv') = length (tables kv) → res' = res)
  ∧ ((length (tables kv) < length (tables kv'))%nat → res' = Some ErrFragmented)
  ∧ ∃ older t, tables kv' = older ++ [t] ∧ t_get hkey t = (Some value, false).
Proof.
  induction fuel as [|fuel IH]; intros kv hkey value res kv' res' Hwf; [done|].
  cbn [Put_loop].
  destruct (tables kv !! (length (tables kv) - 1)%nat) as [t|] eqn:Hlast; [|done].
  destruct (last_table_decompose _ _ Hlast) as [older Hts].
  assert (wf_table t) as Ht.
  { eapply (proj1 (Forall_lookup _ _) Hwf); eauto. }
  destruct (t_put hkey value t) as [t' [err|]] eqn:Hput.
  - destruct (t_put_full _ _ _ _ _ Hput) as (-> & -> & _).
    rewrite list_insert_id, with_tables_id by done.
    intros Hrun. apply IH in Hrun.
    + destruct Hrun as (Hwf' & Hopt & Hlen & Hsame & Hfrag & Hlastput).
      cbn [tables with_tables options] in *. rewrite length_app in *. cbn [length] in *.
      repeat split; try done; try lia.
      intros _.
      destruct (decide (length (tables kv') = length (tables kv) + 1)%nat);
        [by apply Hsame | apply Hfrag; lia].
    + apply Forall_app. split; [done|]. repeat constructor.
      apply wf_table_newTable. pose proof (Inuse_nonneg kv Hwf). lia.
  - intros [= <- <-].
    destruct (wf_table_put _ _ _ _ Ht Hput) as [Ht' Hget].
    cbn [tables with_tables options]. rewrite length_insert.
    repeat split; try done; try lia.
    + by apply Forall_insert.
    + exists older, t'. split; [|done].
      rewrite Hts at 1. rewrite Hts, length_app. cbn [length].
      replace (length older + 1 - 1)%nat with (length older + 0)%nat by lia.
      by rewrite insert_app_r.
Qed.

Lemma wf_Put fuel kv hkey value kv' err :
  wf kv → Put fuel kv hkey value = Returned (kv', err) → wf kv'.
Proof.
  intros Hwf. unfold Put. destruct (tables_empty kv); [done|].
  intros Hrun. by destruct (Put_loop_spec _ _ _ _ _ _ _ Hwf Hrun) as [Hwf' _].
Qed.

Lemma Delete_loop_wf ts hkey (n : nat) ts' :
  Forall wf_table ts → Delete_loop ts hkey n = Returned ts' → Forall wf_table ts'.
Proof.
  revert ts. induction n as [|i IH]; intros ts Hwf; cbn [Delete_loop].
  - by intros [= <-].
  - destruct (ts !! i) as [t|] eqn:Hi; [|done].
    assert (Forall wf_table (<[i:=fst (t_delete hkey t)]> ts)) as Hwf'.
    { apply Forall_insert; [done|]. apply wf_table_delete.
      eapply (proj1 (Forall_lookup _ _) Hwf); eauto. }
    destruct (t_delete hkey t) as [t' []]; cbn [fst] in Hwf'.
    + by apply IH.
    + by intros [= <-].
Qed.

Lemma wf_Delete kv hkey kv' err :
  wf kv → Delete kv hkey = Returned (kv', err) → wf kv'.
Proof.
  intros Hwf. unfold Delete. destruct (tables_empty kv); [done|].
  destruct (Delete_loop _ _ _) as [ts| |] eqn:Hloop; [|done..].
  pose proof (Delete_loop_wf _ _ _ _ Hwf Hloop) as Hts.
  cbn [tables with_tables].
  destruct (negb _); [by intros [= <- _]|].
  destruct (ts !! 0%nat) as [t|]; [|done].
  destruct (garbage_ratio_reached t); intros [= <- _]; [|done].
  apply Forall_app. split; [done|]. repeat constructor.
  apply wf_table_newTable. pose proof (Inuse_nonneg (with_tables kv ts) Hts). lia.
Qed.

End EngineInvariants.

(** * Delete and the copies of a key *)

Section DeleteCopies.
Context {Entry : Type} `{!EntryCodec Entry} `{!Msgpack}.
Implicit Types (kv : KVStore) (t : table) (ts : list table) (hkey : Z).

Lemma t_get_absent hkey t : ¬ holds hkey t → t_get hkey t = (None, true).
Proof.
  unfold holds, t_get. destruct (hkeys t !! hkey); [|done].
  intros []. by eexists.
Qed.

Lemma t_delete_absent hkey t : ¬ holds hkey t → t_delete hkey t = (t, true).
Proof.
  unfold holds, t_delete. destruct (hkeys t !! hkey); [|done].
  intros []. by eexists.
Qed.

Lemma t_delete_present hkey t :
  holds hkey t →
  snd (t_delete hkey t) = false ∧ ¬ holds hkey (fst (t_delete hkey t)).
Proof.
  unfold holds, t_delete. intros [off ->]. cbn. split; [done|].
  rewrite lookup_delete_eq. by intros [? [=]].
Qed.

Lemma Delete_loop_skip ts hkey (k m : nat) :
  (∀ j, (k ≤ j < k + m)%nat → ∃ t, ts !! j = Some t ∧ ¬ holds hkey t) →
  Delete_loop ts hkey (k + m) = Delete_loop ts hkey k.
Proof.
  induction m as [|m IH]; intros Habsent.
  - by rewrite Nat.add_0_r.
  - rewrite Nat.add_succ_r. cbn [Delete_loop].
    destruct (Habsent (k + m)%nat) as (t & Hj & Ht); [lia|].
    rewrite Hj, (t_delete_absent _ _ Ht), list_insert_id by done.
    apply IH. intros j Hj'. apply Habsent. lia.
Qed.

Lemma lookup_newer older t newer (j : nat) (P : table → Prop) :
  Forall P newer →
  (S (length older) ≤ j < S (length older) + length newer)%nat →
  ∃ u, (older ++ t :: newer) !! j = Some u ∧ P u.
Proof.
  intros Hnewer Hj.
  destruct (lookup_lt_is_Some_2 newer (j - S (length older))) as [u Hu]; [lia|].
  exists u. split.
  - rewrite lookup_app_r by lia.
    by replace (j - length older)%nat with (S (j - S (length older))) by lia.
  - eapply (proj1 (Forall_lookup _ _) Hnewer); eauto.
Qed.

(** The deletion loop stops at the newest table that holds the hkey: that
    table loses it, every other table stays as it is. *)
Lemma Delete_loop_newest_holder older t newer hkey :
  Forall (λ u, ¬ holds hkey u) newer →
  holds hkey t →
  Delete_loop (older ++ t :: newer) hkey (length (older ++ t :: newer))
  = Returned (older ++ fst (t_delete hkey t) :: newer).
Proof.
  intros Hnewer Ht.
  replace (length (older ++ t :: newer)) with (S (length older) + length newer)%nat
    by (rewrite length_app; cbn; lia).
  rewrite Delete_loop_skip by (intros j Hj; by apply lookup_newer).
  cbn [Delete_loop]. rewrite list_lookup_middle by done.
  destruct (t_delete_present _ _ Ht) as [Hprev _].
  destruct (t_delete hkey t) as [t' prev]. cbn in Hprev. subst prev. cbn [fst].
  replace (length older) with (length older + 0)%nat at 1 by lia.
  by rewrite insert_app_r.
Qed.

Lemma Delete_loop_no_holder ts hkey :
  Forall (λ u, ¬ holds hkey u) ts →
  Delete_loop ts hkey (length ts) = Returned ts.
Proof.
  intros Habsent. change (length ts) with (0 + length ts)%nat.
  rewrite Delete_loop_skip; [done|].
  intros j Hj. destruct (lookup_lt_is_Some_2 ts j) as [u Hu]; [lia|].
  exists u. split; [done|]. eapply (proj1 (Forall_lookup _ _) Habsent); eauto.
Qed.

Lemma absent_prev hkey ts :
  Forall (λ u, ¬ holds hkey u) ts → Forall (λ u, snd (t_get hkey u) = true) ts.
Proof.
  intros Habsent. eapply Forall_impl; [exact Habsent|].
  intros u Hu. by rewrite t_get_absent.
Qed.

(** Whenever two tables of the chain hold the hkey, [Delete] removes the
    copy of the newest of them and returns [nil], and the [Get] that
    follows answers with the entry of the next older holder. *)
Lemma Delete_exposes_older_copy kv hkey oldest told between t newer res :
  tables kv = (oldest ++ told :: between) ++ t :: newer →
  Forall (λ u, ¬ holds hkey u) newer → holds hkey t →
  Forall (λ u, ¬ holds hkey u) between → t_get hkey told = (res, false) →
  ∃ kv', Delete kv hkey = Returned (kv', None)
         ∧ Get kv' hkey = Returned (res, None).
Proof.
  intros Hts Hnewer Ht Hbetween Htold.
  destruct (t_delete_present _ _ Ht) as [_ Hgone].
  exists (with_tables kv ((oldest ++ told :: between) ++ fst (t_delete hkey t) :: newer)).
  split.
  - unfold Delete. rewrite tables_empty_false by (rewrite Hts; by destruct oldest).
    rewrite Hts, Delete_loop_newest_holder by done. cbn [tables with_tables].
    rewrite !length_app. cbn [length].
    by destruct (Nat.eqb_spec (length oldest + S (length between) + S (length newer)) 1);
      [lia|].
  - unfold Get. cbn [tables with_tables].
    rewrite tables_empty_false by (cbn; by destruct oldest).
    rewrite <- (app_assoc oldest). cbn [app].
    apply scan_tables_hit; [|done].
    apply absent_prev, Forall_app. split; [done|]. by constructor.
Qed.

(** X19: when at most one table holds the hkey, [Delete] returns and the
    [Get] that follows answers [ErrKeyNotFound]. *)
Lemma Delete_single_copy kv hkey older t newer :
  tables kv = older ++ t :: newer →
  Forall (λ u, ¬ holds hkey u) newer → Forall (λ u, ¬ holds hkey u) older →
  ∃ kv' err, Delete kv hkey = Returned (kv', err)
             ∧ Get kv' hkey = Returned (None, Some ErrKeyNotFound).
Proof.
  intros Hts Hnewer Holder.
  assert (∃ t', Delete_loop (tables kv) hkey (length (tables kv))
                = Returned (older ++ t' :: newer) ∧ ¬ holds hkey t')
    as (t' & Hloop & Ht').
  { rewrite Hts. destruct (decide (holds hkey t)) as [Ht|Ht].
    - eexists. split; [by apply Delete_loop_newest_holder|].
      by apply t_delete_present.
    - exists t. split; [|done]. apply Delete_loop_no_holder.
      apply Forall_app. split; [done|]. by constructor. }
  assert (Forall (λ u, ¬ holds hkey u) (older ++ t' :: newer)) as Habsent.
  { apply Forall_app. split; [done|]. by constructor. }
  assert (∀ extra, Forall (λ u, ¬ holds hkey u) extra →
            Get (with_tables kv ((older ++ t' :: newer) ++ extra)) hkey
            = Returned (None, Some ErrKeyNotFound)) as Hget.
  { intros extra Hextra. unfold Get. cbn [tables with_tables].
    rewrite tables_empty_false by (cbn; by destruct older).
    apply scan_tables_miss, absent_prev, Forall_app. by split. }
  unfold Delete. rewrite tables_empty_false by (rewrite Hts; by destruct older).
  rewrite Hloop. cbn [tables with_tables].
  destruct (negb _).
  - eexists _, _. split; [done|].
    rewrite <- (app_nil_r (older ++ t' :: newer)). by apply Hget.
  - destruct ((older ++ t' :: newer) !! 0%nat) as [t0|] eqn:Ht0.
    2:{ destruct older; discriminate. }
    destruct (garbage_ratio_reached t0).
    + eexists _, _. split; [done|]. apply Hget.
      repeat constructor. unfold holds. cbn. rewrite lookup_empty. by intros [? [=]].
    + eexists _, _. split; [done|].
      rewrite <- (app_nil_r (older ++ t' :: newer)). by apply Hget.
Qed.

End DeleteCopies.

(** * Put *)

Section PutFacts.
Context {Entry : Type} `{!EntryCodec Entry} `{!Msgpack}.
Implicit Types (kv : KVStore) (t : table) (ts : list table) (hkey : Z) (value : Entry).

Lemma t_put_succeeds t hkey value :
  offset t + Z.of_nat (length (Encode value)) ≤ allocated t →
  ∃ t', t_put hkey value t = (t', None).
Proof.
  intros Hfit. unfold t_put.
  destruct (Z.ltb_spec (allocated t) (offset t + Z.of_nat (length (Encode value)))); [lia|].
  by eexists.
Qed.

Lemma t_put_fails t hkey value :
  allocated t < offset t + Z.of_nat (length (Encode value)) →
  t_put hkey value t = (t, Some errNotEnoughSpace).
Proof.
  intros Hfull. unfold t_put.
  by destruct (Z.ltb_spec (allocated t) (offset t + Z.of_nat (length (Encode value)))); [|lia].
Qed.

Lemma last_table_append ts t : (ts ++ [t]) !! (length (ts ++ [t]) - 1)%nat = Some t.
Proof.
  rewrite length_app. cbn [length].
  replace (length ts + 1 - 1)%nat with (length ts + 0)%nat by lia.
  by rewrite lookup_app_r, Nat.add_0_r, Nat.sub_diag by lia.
Qed.

Lemma last_table_exists ts : ts ≠ [] → ∃ t, ts !! (length ts - 1)%nat = Some t.
Proof.
  intros Hne. apply lookup_lt_is_Some_2. destruct ts; [done|]. cbn. lia.
Qed.

(** One turn of the loop of [Put] on a full newest table: a table of
    [kv.Inuse() * 2] bytes is appended and the loop goes on with it. *)
Lemma Put_loop_full fuel kv hkey value res t :
  tables kv !! (length (tables kv) - 1)%nat = Some t →
  allocated t < offset t + Z.of_nat (length (Encode value)) →
  Put_loop (S fuel) kv hkey value res =
  Put_loop fuel (with_tables kv (tables kv ++ [newTable (Inuse kv * 2)]))
           hkey value (Some ErrFragmented).
Proof.
  intros Hlast Hfull. cbn [Put_loop]. rewrite Hlast, (t_put_fails _ _ _ Hfull).
  by rewrite list_insert_id, with_tables_id by done.
Qed.

(** The loop of [Put] returns within two turns when the frame fits the
    newest table or twice the bytes in use. *)
Lemma Put_loop_returns kv hkey value res :
  tables kv ≠ [] →
  (∃ t, tables kv !! (length (tables kv) - 1)%nat = Some t
        ∧ offset t + Z.of_nat (length (Encode value)) ≤ allocated t)
  ∨ Z.of_nat (length (Encode value)) ≤ Inuse kv * 2 →
  ∃ kv' res', Put_loop 2 kv hkey value res = Returned (kv', res').
Proof.
  intros Hne Hroom.
  destruct (last_table_exists _ Hne) as [t Hlast].
  destruct (Z.le_gt_cases (offset t + Z.of_nat (length (Encode value))) (allocated t))
    as [Hfit|Hfull].
  - destruct (t_put_succeeds t hkey value Hfit) as [t' Hput].
    cbn [Put_loop]. rewrite Hlast, Hput. by eexists _, _.
  - destruct Hroom as [(t0 & Hlast0 & Hfit0)|Htwice]; [simplify_eq; lia|].
    rewrite (Put_loop_full _ _ _ _ _ t) by (done || lia).
    cbn [Put_loop tables with_tables]. rewrite last_table_append.
    destruct (t_put_succeeds (newTable (Inuse kv * 2)) hkey value) as [t' Hput];
      [cbn; lia|].
    rewrite Hput. by eexists _, _.
Qed.

(** The loop of [Put] never ends when the frame fits neither the newest
    table nor twice the bytes in use: every turn appends one more table of
    the same, too small, size. *)
Lemma Put_loop_diverges fuel : ∀ kv hkey value res t,
  tables kv !! (length (tables kv) - 1)%nat = Some t →
  allocated t < offset t + Z.of_nat (length (Encode value)) →
  Inuse kv * 2 < Z.of_nat (length (Encode value)) →
  Put_loop fuel kv hkey value res = OutOfFuel.
Proof.
  induction fuel as [|fuel IH]; intros kv hkey value res t Hlast Hfull Htwice; [done|].
  rewrite (Put_loop_full _ _ _ _ _ t) by done.
  apply (IH _ _ _ _ (newTable (Inuse kv * 2))).
  - apply last_table_append.
  - cbn. lia.
  - rewrite <- (with_tables_id kv) at 1.
    unfold Inuse in *. cbn [tables with_tables]. rewrite fold_left_app. cbn. lia.
Qed.

Lemma Put_loop_length fuel : ∀ kv hkey value res kv' res',
  Put_loop fuel kv hkey value res = Returned (kv', res') →
  (length (tables kv) ≤ length (tables kv'))%nat.
Proof.
  induction fuel as [|fuel IH]; intros kv hkey value res kv' res'; [done|].
  cbn [Put_loop]. destruct (tables kv !! _) as [t|]; [|done].
  destruct (t_put hkey value t) as [t' [[]|]]; intros Hrun;
    try (injection Hrun as <- _; cbn; by rewrite length_insert).
  apply IH in Hrun. cbn in Hrun. rewrite length_app, length_insert in Hrun. lia.
Qed.

Lemma Put_loop_no_panic fuel : ∀ kv hkey value res msg,
  tables kv ≠ [] → Put_loop fuel kv hkey value res ≠ Panicked msg.
Proof.
  induction fuel as [|fuel IH]; intros kv hkey value res msg Hne; [done|].
  cbn [Put_loop]. destruct (last_table_exists _ Hne) as [t ->].
  destruct (t_put hkey value t) as [t' [[]|]]; try done.
  apply IH. cbn. by destruct (<[_:=_]> (tables kv)).
Qed.

End PutFacts.

Section PutResults.
Context {Entry : Type} `{!EntryCodec Entry} `{!Msgpack}.
Implicit Types (kv : KVStore) (t : table) (hkey : Z) (value : Entry).


(** C6: a [Put] that returns gives [ErrFragmented] exactly when the chain
    has grown during the call, and [nil] otherwise; either way the entry is
    stored, a [Get] of the hkey right after answers with it. [Put] does
    return, within two turns of its loop, when the frame fits the newest
    table or twice the bytes in use. *)
Theorem Put_Fragmented_iff_allocated `{!EntryCodecLaws Entry} kv hkey value :
  wf kv → tables kv ≠ [] →
  (∀ fuel kv' res,
     Put fuel kv hkey value = Returned (kv', res) →
     (res = Some ErrFragmented ↔ (length (tables kv) < length (tables kv'))%nat)
     ∧ (res = None ↔ length (tables kv') = length (tables kv))
     ∧ Get kv' hkey = Returned (Some value, None))
  ∧ ((∃ t, tables kv !! (length (tables kv) - 1)%nat = Some t
           ∧ offset t + Z.of_nat (length (Encode value)) ≤ allocated t)
     ∨ Z.of_nat (length (Encode value)) ≤ Inuse kv * 2 →
     ∃ kv' res, Put 2 kv hkey value = Returned (kv', res)).
Proof.
  intros Hwf Hne. unfold Put. rewrite (tables_empty_false kv Hne). split.
  - intros fuel kv' res Hrun.
    destruct (Put_loop_spec _ _ _ _ _ _ _ Hwf Hrun)
      as (_ & _ & Hlen & Hsame & Hgrown & older & t & Hts & Hget).
    assert (length (tables kv') = length (tables kv)
            ∨ (length (tables kv) < length (tables kv'))%nat) as [Heq|Hlt] by lia.
    + rewrite (Hsame Heq). repeat split; try done; try lia.
      unfold Get. rewrite tables_empty_false by (rewrite Hts; by destruct older).
      rewrite Hts. by apply scan_tables_hit.
    + rewrite (Hgrown Hlt). repeat split; try done; try lia.
      unfold Get. rewrite tables_empty_false by (rewrite Hts; by destruct older).
      rewrite Hts. by apply scan_tables_hit.
  - by apply Put_loop_returns.
Qed.

End PutResults.

(** * Export and Import *)

Section ExportImport.
Context {Entry : Type} `{!EntryCodec Entry} `{!EntryCodecLaws Entry}.
Context `{!Msgpack} `{!MsgpackLaws}.
Implicit Types (kv : KVStore) (t : table) (E : gmap Z Entry) (hkey : Z).

Lemma imported_prefix t :
  0 ≤ offset t ≤ allocated t →
  Z.of_nat (length (memory t)) = allocated t →
  take (Z.to_nat (offset t)) (memory (imported t))
  = take (Z.to_nat (offset t)) (memory t).
Proof.
  intros Hoff Hmem. cbn. unfold go_copy. rewrite length_replicate.
  rewrite take_app_le.
  - rewrite take_take, take_app_le by (rewrite length_take; lia).
    rewrite take_take. f_equal. lia.
  - rewrite length_take, length_app, length_take. cbn. lia.
Qed.

Lemma imported_rep t E : table_rep t E → table_rep (imported t) E.
Proof.
  intros [Ho Hm Hc Hi Hx Hf]. split; cbn -[go_copy]; try done.
  - rewrite length_go_copy, length_replicate. lia.
  - intros h off e Hh He. destruct (Hf h off e Hh He) as (Hoff0 & Hend & Hframe).
    split; [done|]. split; [done|].
    etrans; [|exact Hframe]. unfold frame_at.
    apply (take_drop_agree _ _ (Z.to_nat (offset t))); [|lia].
    by apply imported_prefix.
Qed.

Lemma Import_Marshal recv tr :
  Import recv (Marshal tr) =
    Returned (Some {| tables :=
                        [ {| hkeys := HKeys tr;
                             memory := go_copy (replicate (Z.to_nat (Allocated tr)) "000"%byte)
                                               (Memory tr);
                             offset := Offset tr;
                             allocated := Allocated tr;
                             inuse := Inuse_ tr;
                             garbage := Garbage tr |} ];
                      options := <["TableSize" := Allocated tr]> (options recv) |},
              None).
Proof.
  unfold Import. rewrite Unmarshal_Marshal. unfold New.
  by rewrite lookup_insert_eq.
Qed.

Lemma single_table_Get kv t E hkey :
  tables kv = [t] → table_rep t E →
  Get kv hkey = Returned (E !! hkey,
                          if bool_decide (E !! hkey = None)
                          then Some ErrKeyNotFound else None).
Proof.
  intros Hts Hrep. unfold Get, tables_empty. rewrite Hts. cbn.
  rewrite (table_rep_get _ _ _ Hrep).
  case_bool_decide as Hin; [by rewrite Hin|done].
Qed.

(** C3: for an engine with exactly one table, in a state of the data
    model, [Export] returns bytes from which [Import] (on any receiver)
    makes an engine with exactly one table that has the same [Len], the
    same [Stats] and the same [Get] result for every hkey. *)
Theorem Import_Export_roundtrip kv recv t :
  tables kv = [t] → wf_table t →
  ∃ data fresh,
    Export kv = Returned (Some data, None)
    ∧ Import recv data = Returned (Some fresh, None)
    ∧ length (tables fresh) = 1%nat
    ∧ Len fresh = Len kv
    ∧ Stats fresh = Stats kv
    ∧ ∀ hkey, Get fresh hkey = Get kv hkey.
Proof.
  intros Hts [E Hrep].
  pose proof (imported_rep _ _ Hrep) as Hrep'.
  eexists _, _. split.
  { apply (Export_returns kv t Hts).
    destruct Hrep as [Ho Hm _ _ _ _]. lia. }
  rewrite Import_Marshal. cbn [HKeys Memory Offset Allocated Inuse_ Garbage].
  change (mkTable (hkeys t) _ (offset t) (allocated t) (inuse t) (garbage t))
    with (imported t).
  split; [done|]. split; [done|].
  split; [unfold Len; by rewrite Hts|].
  split; [unfold Stats; by rewrite Hts|].
  intros hkey.
  rewrite (single_table_Get _ (imported t) E) by done.
  by rewrite (single_table_Get kv t E).
Qed.

End ExportImport.

(** * The chain is never empty *)

Section ChainNeverEmpty.
Context {Entry : Type} `{!EntryCodec Entry} `{!Msgpack} `{!RawTableOps Entry}.
Implicit Types (kv : KVStore) (t : table) (ts : list table) (hkey : Z).

Lemma New_one_table opts kv : New opts = (Some kv, None) → length (tables kv) = 1%nat.
Proof.
  unfold New. destruct (opts !! "TableSize"); [|done]. by intros [= <-].
Qed.

Lemma Import_one_table recv data kv :
  Import recv data = Returned (Some kv, None) → length (tables kv) = 1%nat.
Proof.
  unfold Import. destruct (Unmarshal data) as [tr|]; [|done].
  destruct (New _) as [[fresh|] [err|]] eqn:Hnew; try done.
  pose proof (New_one_table _ _ Hnew) as Hlen.
  destruct (tables fresh !! 0%nat); [|done].
  intros [= <-]. cbn. by rewrite length_insert.
Qed.

Lemma PutRaw_loop_length fuel : ∀ kv hkey value res kv' res',
  PutRaw_loop fuel kv hkey value res = Returned (kv', res') →
  (length (tables kv) ≤ length (tables kv'))%nat.
Proof.
  induction fuel as [|fuel IH]; intros kv hkey value res kv' res'; [done|].
  cbn [PutRaw_loop]. destruct (tables kv !! _) as [t|]; [|done].
  destruct (t_putRaw hkey value t) as [t' [[]|]]; intros Hrun;
    try (injection Hrun as <- _; cbn; by rewrite length_insert).
  apply IH in Hrun. cbn in Hrun. rewrite length_app, length_insert in Hrun. lia.
Qed.

Lemma PutRaw_loop_no_panic fuel : ∀ kv hkey value res msg,
  tables kv ≠ [] → PutRaw_loop fuel kv hkey value res ≠ Panicked msg.
Proof.
  induction fuel as [|fuel IH]; intros kv hkey value res msg Hne; [done|].
  cbn [PutRaw_loop]. destruct (last_table_exists _ Hne) as [t ->].
  destruct (t_putRaw hkey value t) as [t' [[]|]]; try done.
  apply IH. cbn. by destruct (<[_:=_]> (tables kv)).
Qed.

Lemma scan_tables_no_panic {A} (getter : table → A * bool) notfound ts (n : nat) msg :
  (n ≤ length ts)%nat → scan_tables getter notfound ts n ≠ Panicked msg.
Proof.
  induction n as [|i IH]; intros Hn; [done|]. cbn [scan_tables].
  destruct (lookup_lt_is_Some_2 ts i) as [t ->]; [lia|].
  destruct (getter t) as [res []]; [|done]. apply IH. lia.
Qed.

Lemma Check_loop_no_panic ts hkey (n : nat) msg :
  (n ≤ length ts)%nat → Check_loop ts hkey n ≠ Panicked msg.
Proof.
  induction n as [|i IH]; intros Hn; [done|]. cbn [Check_loop].
  destruct (lookup_lt_is_Some_2 ts i) as [t ->]; [lia|].
  destruct (hkeys t !! hkey); [done|]. apply IH. lia.
Qed.

Lemma UpdateTTL_loop_returns ts hkey (data : Entry) (n : nat) :
  (n ≤ length ts)%nat →
  ∃ ts' err, UpdateTTL_loop ts hkey data n = Returned (ts', err)
             ∧ length ts' = length ts.
Proof.
  revert ts. induction n as [|i IH]; intros ts Hn; cbn [UpdateTTL_loop].
  - by exists ts, (Some ErrKeyNotFound).
  - destruct (lookup_lt_is_Some_2 ts i) as [t ->]; [lia|].
    destruct (t_updateTTL hkey data t) as [t' []].
    + destruct (IH (<[i:=t']> ts)) as (ts' & err & Hrun & Hlen).
      { rewrite length_insert. lia. }
      exists ts', err. split; [done|]. by rewrite Hlen, length_insert.
    + eexists _, _. split; [done|]. by rewrite length_insert.
Qed.

Lemma Put_length fuel kv hkey (value : Entry) kv' err :
  Put fuel kv hkey value = Returned (kv', err) →
  (length (tables kv) ≤ length (tables kv'))%nat.
Proof. unfold Put. destruct (tables_empty kv); [done|]. apply Put_loop_length. Qed.

Lemma PutRaw_length fuel kv hkey value kv' err :
  PutRaw fuel kv hkey value = Returned (kv', err) →
  (length (tables kv) ≤ length (tables kv'))%nat.
Proof. unfold PutRaw. destruct (tables_empty kv); [done|]. apply PutRaw_loop_length. Qed.

Lemma Delete_length kv hkey kv' err :
  Delete kv hkey = Returned (kv', err) →
  (length (tables kv) ≤ length (tables kv'))%nat.
Proof.
  unfold Delete. destruct (tables_empty kv); [done|].
  destruct (Delete_loop_returns (tables kv) hkey (length (tables kv)))
    as (ts & -> & Hlen); [done|].
  cbn [tables with_tables].
  destruct (negb _); [intros [= <- _]; cbn; lia|].
  destruct (ts !! 0%nat) as [t|]; [|done].
  destruct (garbage_ratio_reached t); intros [= <- _]; cbn; [|lia].
  rewrite length_app. lia.
Qed.

Lemma Delete_no_panic kv hkey msg :
  tables kv ≠ [] → Delete kv hkey ≠ Panicked msg.
Proof.
  intros Hne. unfold Delete. rewrite tables_empty_false by done.
  destruct (Delete_loop_returns (tables kv) hkey (length (tables kv)))
    as (ts & -> & Hlen); [done|].
  cbn [tables with_tables].
  destruct (Nat.eqb_spec (length ts) 1) as [Hone|]; [|done]. cbn [negb].
  destruct ts as [|t ts]; [done|]. change ((t :: ts) !! 0%nat) with (Some t).
  cbv beta iota. by destruct (garbage_ratio_reached t).
Qed.

Lemma UpdateTTL_length kv hkey (data : Entry) kv' err :
  UpdateTTL kv hkey data = Returned (kv', err) →
  length (tables kv') = length (tables kv).
Proof.
  unfold UpdateTTL. destruct (tables_empty kv); [done|].
  destruct (UpdateTTL_loop_returns (tables kv) hkey data (length (tables kv)))
    as (ts & e & -> & Hlen); [done|].
  by intros [= <- _].
Qed.

Lemma UpdateTTL_no_panic kv hkey (data : Entry) msg :
  tables kv ≠ [] → UpdateTTL kv hkey data ≠ Panicked msg.
Proof.
  intros Hne. unfold UpdateTTL. rewrite tables_empty_false by done.
  by destruct (UpdateTTL_loop_returns (tables kv) hkey data (length (tables kv)))
    as (ts & e & -> & Hlen).
Qed.

Lemma reachable_nonempty kv : reachable kv → (1 ≤ length (tables kv))%nat.
Proof.
  induction 1 as [opts kv Hnew | kv kv' _ _ Hfork | kv data kv' _ _ Himp
                 | kv fuel hkey value kv' err _ IH Hput
                 | kv fuel hkey value kv' err _ IH Hput
                 | kv hkey kv' err _ IH Hdel
                 | kv hkey data kv' err _ IH Hupd ].
  - by rewrite (New_one_table _ _ Hnew).
  - by rewrite (New_one_table _ _ Hfork).
  - by rewrite (Import_one_table _ _ _ Himp).
  - apply Put_length in Hput. lia.
  - apply PutRaw_length in Hput. lia.
  - apply Delete_length in Hdel. lia.
  - apply UpdateTTL_length in Hupd. lia.
Qed.

(** C10: [New] installs exactly one table; in every state that the
    methods produce from there the chain has at least one table; [Put],
    [PutRaw], [Delete] and [UpdateTTL] return with a chain that is at least
    as long as before (the other methods do not change the state); and no
    method panics there, so the branches [panic("tables cannot be empty")]
    are never taken. *)
Theorem tables_never_empty kv :
  reachable kv →
  (1 ≤ length (tables kv))%nat
  ∧ (∀ opts kv0, New opts = (Some kv0, None) → length (tables kv0) = 1%nat)
  ∧ (∀ fuel hkey (value : Entry) kv' err,
       Put fuel kv hkey value = Returned (kv', err) →
       (length (tables kv) ≤ length (tables kv'))%nat)
  ∧ (∀ fuel hkey value kv' err,
       PutRaw fuel kv hkey value = Returned (kv', err) →
       (length (tables kv) ≤ length (tables kv'))%nat)
  ∧ (∀ hkey kv' err,
       Delete kv hkey = Returned (kv', err) →
       (length (tables kv) ≤ length (tables kv'))%nat)
  ∧ (∀ hkey (data : Entry) kv' err,
       UpdateTTL kv hkey data = Returned (kv', err) →
       length (tables kv') = length (tables kv))
  ∧ (∀ msg,
       (∀ fuel hkey (value : Entry), Put fuel kv hkey value ≠ Panicked msg)
       ∧ (∀ fuel hkey value, PutRaw fuel kv hkey value ≠ Panicked msg)
       ∧ (∀ hkey, Get kv hkey ≠ Panicked msg)
       ∧ (∀ hkey, GetRaw kv hkey ≠ Panicked msg)
       ∧ (∀ hkey, GetTTL kv hkey ≠ Panicked msg)
       ∧ (∀ hkey, GetKey kv hkey ≠ Panicked msg)
       ∧ (∀ hkey, Delete kv hkey ≠ Panicked msg)
       ∧ (∀ hkey (data : Entry), UpdateTTL kv hkey data ≠ Panicked msg)
       ∧ (∀ hkey, Check kv hkey ≠ Panicked msg)).
Proof.
  intros Hreach. pose proof (reachable_nonempty kv Hreach) as Hlen.
  assert (tables kv ≠ []) as Hne by (destruct (tables kv); [cbn in Hlen; lia|done]).
  pose proof (tables_empty_false kv Hne) as Hguard.
  split; [done|]. split; [apply New_one_table|].
  split; [intros; by eapply Put_length|].
  split; [intros; by eapply PutRaw_length|].
  split; [intros; by eapply Delete_length|].
  split; [intros; by eapply UpdateTTL_length|].
  intros msg. unfold Put, PutRaw, Get, GetRaw, GetTTL, GetKey, Check. rewrite Hguard.
  repeat split; intros.
  - by apply Put_loop_no_panic.
  - by apply PutRaw_loop_no_panic.
  - by apply scan_tables_no_panic.
  - by apply scan_tables_no_panic.
  - by apply scan_tables_no_panic.
  - by apply scan_tables_no_panic.
  - by apply Delete_no_panic.
  - by apply UpdateTTL_no_panic.
  - by apply Check_loop_no_panic.
Qed.

End ChainNeverEmpty.

(** * Properties of the lock protocol *)

Section LockFacts.
Import dmap.
Context {W env : Type} `{!Service W env}.
Implicit Types (dm : DMap) (key : string) (token : list byte) (w : W).





End LockFacts.

(** * The sample frame format and wire format obey the laws *)

Section SampleLaws.
Import sample.

Lemma unstuff_stuff payload rest : unstuff (stuff payload ++ rest) = payload.
Proof.
  induction payload as [|b payload IH]; cbn.
  - by destruct rest.
  - by rewrite IH.
Qed.

Lemma length_stuff payload :
  Z.of_nat (length (stuff payload)) = 2 * Z.of_nat (length payload) + 1.
Proof. induction payload as [|b payload IH]; cbn [stuff length]; lia. Qed.

#[global] Instance codec_laws : EntryCodecLaws (list byte).
Proof.
  split.
  - apply unstuff_stuff.
  - intros e rest. cbn. rewrite unstuff_stuff. by rewrite length_stuff.
Qed.

Lemma unbits_bits (p : positive) : unbits (bits p) = p.
Proof. induction p as [p IH|p IH|]; cbn; by rewrite ?IH. Qed.

Lemma of_fields_fields tr : of_fields (fields tr) = tr.
Proof. by destruct tr. Qed.

#[global] Instance msgpack_laws : MsgpackLaws.
Proof.
  split. intros tr. cbn. by rewrite unbits_bits, decode_encode, of_fields_fields.
Qed.

End SampleLaws.

(** * The engine at concrete states *)

Section EngineAtSamples.
Import sample.

(** C1: the chain [two_copies] holds hkey 1 in both tables. [Delete(1)]
    returns [nil] and removes the copy of the newer table only; the [Get]
    that follows answers with the entry of the older table instead of
    [ErrKeyNotFound]. *)
Lemma Delete_leaves_older_copy :
  Get two_copies 1 = Returned (Some (payload 15000 "097"%byte), None)
  ∧ match Delete two_copies 1 with
    | Returned (kv', err) =>
        err = None
        ∧ Get kv' 1 = Returned (Some (payload 15000 "065"%byte), None)
        ∧ map (λ t, bool_decide (is_Some (hkeys t !! 1))) (tables kv') = [true; false]
    | _ => False
    end.
Proof. vm_compute. repeat split; reflexivity. Qed.


Lemma wf_state_after fuel (kv : KVStore) hkey (value : list byte) :
  wf kv → wf (state_after kv (Put fuel kv hkey value)).
Proof.
  intros Hwf. destruct (Put fuel kv hkey value) as [[kv' res]| |] eqn:Hput; [|done..].
  by apply (wf_Put _ _ _ _ _ _ Hwf Hput).
Qed.

Lemma small_fresh_wf : wf small_fresh.
Proof.
  apply (wf_New (<["TableSize" := 64]> ∅)); [reflexivity|]. vm_compute. discriminate.
Qed.

Lemma small_wf : wf small.
Proof. apply wf_state_after, small_fresh_wf. Qed.

Lemma small_garbage_wf : wf small_garbage.
Proof. apply wf_state_after, wf_state_after, small_fresh_wf. Qed.

Lemma small_reachable : reachable small.
Proof.
  apply (reach_Put small_fresh 2 7 (payload 3 "120"%byte) small None).
  - apply (reach_New (<["TableSize" := 64]> ∅)). reflexivity.
  - vm_compute. reflexivity.
Qed.

(** [Get_newest_first] at [small_two], where both tables hold hkey 7: the
    entry of the newer table is returned. *)
Lemma Get_newest_first_witness :
  tables small_two ≠ []
  ∧ Get small_two 7 = Returned (Some (payload 11 "097"%byte), None).
Proof.
  assert (tables small_two ≠ []) as Hne by (vm_compute; discriminate).
  split; [exact Hne|].
  apply (proj1 (Get_newest_first small_two 7 Hne)
           (take 1 (tables small_two))
           (default (newTable 0) (tables small_two !! 1%nat)) []).
  - vm_compute. reflexivity.
  - constructor.
  - vm_compute. reflexivity.
Defined.


(** [Export_single_table] at [small]. *)
Lemma Export_single_table_witness :
  ∃ data, Export small = Returned (Some data, None).
Proof.
  eexists.
  apply (proj2 (Export_single_table small)
           (default (newTable 0) (tables small !! 0%nat))).
  - vm_compute. reflexivity.
  - vm_compute. split; discriminate.
Defined.


(** [Put_Fragmented_iff_allocated] at [small_garbage] and the same frame:
    the put spills to a second table, returns [ErrFragmented] and the entry
    is there. *)
Lemma Put_Fragmented_iff_allocated_witness :
  wf small_garbage
  ∧ ∃ kv', Put 2 small_garbage 9 (payload 13 "066"%byte)
             = Returned (kv', Some ErrFragmented)
           ∧ length (tables kv') = 2%nat
           ∧ Get kv' 9 = Returned (Some (payload 13 "066"%byte), None).
Proof.
  split; [exact small_garbage_wf|].
  assert (tables small_garbage ≠ []) as Hne by (vm_compute; discriminate).
  destruct (Put_Fragmented_iff_allocated small_garbage 9 (payload 13 "066"%byte)
              small_garbage_wf Hne) as [Hret Htotal].
  destruct Htotal as (kv' & res & Hput); [right; vm_compute; discriminate|].
  destruct (Hret 2%nat kv' res Hput) as (Hfrag & _ & Hget).
  assert (length (tables kv') = 2%nat) as Hlen.
  { vm_compute in Hput. by injection Hput as <- _. }
  exists kv'. split; [|done].
  rewrite Hput. do 2 f_equal. apply Hfrag. rewrite Hlen. vm_compute. lia.
Defined.

(** [Import_Export_roundtrip] at [small], with the sample frame format
    and wire format. *)
Lemma Import_Export_roundtrip_witness :
  ∃ data fresh,
    Export small = Returned (Some data, None)
    ∧ Import small_fresh data = Returned (Some fresh, None)
    ∧ Get fresh 7 = Get small 7
    ∧ Get small 7 = Returned (Some (payload 3 "120"%byte), None).
Proof.
  destruct (Import_Export_roundtrip small small_fresh
              (default (newTable 0) (tables small !! 0%nat)))
    as (data & fresh & Hexp & Himp & _ & _ & _ & Hget).
  - vm_compute. reflexivity.
  - pose proof small_wf as Hwf. unfold wf in Hwf.
    apply (proj1 (Forall_lookup _ _) Hwf 0%nat). vm_compute. reflexivity.
  - exists data, fresh.
    split; [exact Hexp|]. split; [exact Himp|]. split; [apply Hget|].
    vm_compute. reflexivity.
Defined.

(** [tables_never_empty] at [small]. *)
Lemma tables_never_empty_witness :
  reachable small
  ∧ (1 ≤ length (tables small))%nat
  ∧ Get small 7 ≠ Panicked "tables cannot be empty".
Proof.
  split; [exact small_reachable|].
  destruct (tables_never_empty small small_reachable)
    as (Hlen & _ & _ & _ & _ & _ & Hpanic).
  split; [exact Hlen|].
  destruct (Hpanic "tables cannot be empty"%string) as (_ & _ & Hget & _). apply Hget.
Defined.

End EngineAtSamples.

(** * The lock protocol on the sample node *)

Section LockAtSamples.
Import dmap sample_node.






End LockAtSamples.

(** * The engine seen as a map *)

Section ChainView.
Context {Entry : Type} `{!EntryCodec Entry} `{!EntryCodecLaws Entry} `{!Msgpack}.
Implicit Types (kv : KVStore) (t : table) (ts : list table) (hkey : Z).
Implicit Types (E : gmap Z Entry) (Es : list (gmap Z Entry)).

Lemma reps_wf ts Es : Forall2 table_rep ts Es → Forall wf_table ts.
Proof. induction 1; constructor; [by eexists|done]. Qed.

Lemma wf_reps ts : Forall wf_table ts → ∃ Es, Forall2 table_rep ts Es.
Proof.
  induction 1 as [|t ts [E Hrep] _ [Es IH]]; [by exists []|].
  exists (E :: Es). by constructor.
Qed.

Lemma newest_entry_app Es E hkey :
  newest_entry (Es ++ [E]) hkey
  = match E !! hkey with Some e => Some e | None => newest_entry Es hkey end.
Proof. unfold newest_entry. by rewrite fold_left_app. Qed.

Lemma newest_entry_pointwise Es Es' hkey :
  Forall2 (λ E E', E' !! hkey = E !! hkey) Es Es' →
  newest_entry Es' hkey = newest_entry Es hkey.
Proof.
  unfold newest_entry. generalize (@None Entry).
  intros found HF. revert found.
  induction HF as [|E E' Es Es' HE _ IH]; intros found; cbn [fold_left]; [done|].
  by rewrite HE, IH.
Qed.

Lemma scan_tables_prefix {A} (getter : table → A * bool) notfound ts extra (n : nat) :
  (n ≤ length ts)%nat →
  scan_tables getter notfound (ts ++ extra) n = scan_tables getter notfound ts n.
Proof.
  induction n as [|i IH]; intros Hn; [done|]. cbn [scan_tables].
  rewrite lookup_app_l by lia. destruct (ts !! i) as [t|]; [|done].
  destruct (getter t) as [res []]; [|done]. apply IH. lia.
Qed.

(** On tables in a state of the data model, the loop of [Get] answers
    with the entry of the newest table that has one. *)
Lemma scan_tables_view ts Es hkey :
  Forall2 table_rep ts Es →
  scan_tables (t_get hkey) None ts (length ts) = Returned (answer (newest_entry Es hkey)).
Proof.
  revert Es. induction ts as [|t ts IH] using rev_ind; intros Es HF.
  - apply Forall2_nil_inv_l in HF as ->. done.
  - apply Forall2_app_inv_l in HF as (Es0 & Es1 & HF0 & HF1 & ->).
    apply Forall2_cons_inv_l in HF1 as (E & Es2 & Hrep & Hnil & ->).
    apply Forall2_nil_inv_l in Hnil as ->.
    rewrite newest_entry_app.
    pose proof (table_rep_get _ _ hkey Hrep) as Hget.
    destruct (E !! hkey) as [e|] eqn:HE.
    + by apply scan_tables_hit.
    + rewrite length_app. cbn [length]. rewrite Nat.add_1_r. cbn [scan_tables].
      rewrite list_lookup_middle, Hget by done. cbn.
      rewrite scan_tables_prefix by done. by apply IH.
Qed.

Lemma Get_view kv Es hkey :
  tables kv ≠ [] → Forall2 table_rep (tables kv) Es →
  Get kv hkey = Returned (answer (newest_entry Es hkey)).
Proof.
  intros Hne HF. unfold Get. rewrite tables_empty_false by done.
  by apply scan_tables_view.
Qed.

(** What the entries of the chain are after a run of the loop of [Put]. *)
Lemma Put_loop_view fuel : ∀ kv hkey (value : Entry) res kv' res' Es,
  Forall2 table_rep (tables kv) Es →
  Put_loop fuel kv hkey value res = Returned (kv', res') →
  ∃ Es', Forall2 table_rep (tables kv') Es'
         ∧ ∀ h, newest_entry Es' h
                = if decide (h = hkey) then Some value else newest_entry Es h.
Proof.
  induction fuel as [|fuel IH]; intros kv hkey value res kv' res' Es HF; [done|].
  cbn [Put_loop].
  destruct (tables kv !! (length (tables kv) - 1)%nat) as [t|] eqn:Hlast; [|done].
  destruct (last_table_decompose _ _ Hlast) as [older Hts].
  destruct (t_put hkey value t) as [t' [err|]] eqn:Hput.
  - destruct (t_put_full _ _ _ _ _ Hput) as (-> & -> & _).
    rewrite list_insert_id, with_tables_id by done.
    intros Hrun.
    apply (IH _ _ _ _ _ _ (Es ++ [∅])) in Hrun.
    + destruct Hrun as (Es' & HF' & Hview). exists Es'. split; [done|].
      intros h. rewrite Hview, newest_entry_app. by rewrite lookup_empty.
    + cbn [tables with_tables]. apply Forall2_app; [done|].
      constructor; [|constructor]. apply table_rep_newTable.
      pose proof (Inuse_nonneg kv (reps_wf _ _ HF)). lia.
  - intros [= <- <-]. cbn [tables with_tables].
    rewrite Hts in HF.
    apply Forall2_app_inv_l in HF as (Es0 & Es1 & HF0 & HF1 & ->).
    apply Forall2_cons_inv_l in HF1 as (E & Es2 & Hrep & Hnil & ->).
    apply Forall2_nil_inv_l in Hnil as ->.
    exists (Es0 ++ [<[hkey:=value]> E]). split.
    + rewrite Hts, length_app. cbn [length].
      replace (length older + 1 - 1)%nat with (length older + 0)%nat by lia.
      rewrite insert_app_r. cbn. apply Forall2_app; [done|].
      constructor; [|constructor]. by eapply table_rep_put.
    + intros h. rewrite !newest_entry_app.
      destruct (decide (h = hkey)) as [->|Hne].
      * by rewrite lookup_insert_eq.
      * by rewrite lookup_insert_ne.
Qed.

(** The tables after the deletion loop: each is as before or has lost the
    hkey. *)
Lemma Delete_loop_pointwise hkey (n : nat) : ∀ ts ts',
  Delete_loop ts hkey n = Returned ts' →
  Forall2 (λ t t', t' = t ∨ t' = fst (t_delete hkey t)) ts ts'.
Proof.
  induction n as [|i IH]; intros ts ts'; cbn [Delete_loop].
  - intros [= <-]. apply Forall_Forall2_diag, Forall_forall. by left.
  - destruct (ts !! i) as [t|] eqn:Hi; [|done].
    assert (Forall2 (λ t t', t' = t ∨ t' = fst (t_delete hkey t))
                    ts (<[i:=fst (t_delete hkey t)]> ts)) as Hstep.
    { rewrite <- (list_insert_id ts i t Hi) at 1.
      apply Forall2_insert; [|by right].
      apply Forall_Forall2_diag, Forall_forall. by left. }
    destruct (t_delete hkey t) as [t' prev] eqn:Hdel. cbn [fst] in Hstep.
    destruct prev.
    + assert (t' = t) as ->.
      { unfold t_delete in Hdel. by destruct (hkeys t !! hkey); simplify_eq. }
      rewrite list_insert_id by done. apply IH.
    + by intros [= <-].
Qed.

Lemma reps_after_delete hkey ts ts' Es :
  Forall2 table_rep ts Es →
  Forall2 (λ t t', t' = t ∨ t' = fst (t_delete hkey t)) ts ts' →
  ∃ Es', Forall2 table_rep ts' Es'
         ∧ Forall2 (λ E E', ∀ h, h ≠ hkey → E' !! h = E !! h) Es Es'.
Proof.
  intros HF. revert ts'.
  induction HF as [|t E ts Es Hrep _ IH]; intros ts' Hpt.
  - apply Forall2_nil_inv_l in Hpt as ->. by exists [].
  - apply Forall2_cons_inv_l in Hpt as (t' & ts2 & Ht' & Hpt & ->).
    destruct (IH _ Hpt) as (Es' & HF' & Hsame).
    destruct Ht' as [->| ->].
    + exists (E :: Es'). split; [by constructor|]. by constructor.
    + exists (delete hkey E :: Es'). split.
      * constructor; [|done]. by apply table_rep_delete.
      * constructor; [|done]. intros h Hne. by rewrite lookup_delete_ne.
Qed.

End ChainView.

Section MapBehaviour.
Context {Entry : Type} `{!EntryCodec Entry} `{!EntryCodecLaws Entry} `{!Msgpack}.
Implicit Types (kv : KVStore) (t : table) (ts : list table) (hkey : Z).

Lemma tables_nonempty kv : tables_empty kv = false → tables kv ≠ [].
Proof. unfold tables_empty. by destruct (tables kv). Qed.

(** X1: to [Get], a [Put] that returns is the insertion of a map: the
    hkey that was put answers with the new entry, and every other hkey
    answers as before the call, whether or not the put went to a new
    table. *)
Theorem Put_is_insert_for_Get kv hkey (value : Entry) fuel kv' res :
  wf kv →
  Put fuel kv hkey value = Returned (kv', res) →
  ∀ h, Get kv' h = if decide (h = hkey) then Returned (Some value, None)
                   else Get kv h.
Proof.
  intros Hwf. unfold Put.
  destruct (tables_empty kv) eqn:Hguard; [done|]. intros Hrun h.
  pose proof (tables_nonempty _ Hguard) as Hne.
  destruct (wf_reps _ Hwf) as [Es HF].
  destruct (Put_loop_view _ _ _ _ _ _ _ _ HF Hrun) as (Es' & HF' & Hview).
  assert (tables kv' ≠ []) as Hne'.
  { pose proof (Put_loop_length _ _ _ _ _ _ _ Hrun) as Hlen.
    destruct (tables kv'), (tables kv); cbn in Hlen; (done || lia). }
  rewrite (Get_view kv' Es') by done. rewrite Hview.
  destruct (decide (h = hkey)); [done|]. by rewrite (Get_view kv Es).
Qed.

(** X2: a [Delete] changes the answer of [Get] for no other hkey, also
    when it appends a table. *)
Theorem Delete_keeps_other_keys kv hkey kv' err :
  wf kv →
  Delete kv hkey = Returned (kv', err) →
  ∀ h, h ≠ hkey → Get kv' h = Get kv h.
Proof.
  intros Hwf. unfold Delete.
  destruct (tables_empty kv) eqn:Hguard; [done|].
  pose proof (tables_nonempty _ Hguard) as Hne.
  destruct (Delete_loop_returns (tables kv) hkey (length (tables kv)))
    as (ts & Hloop & Hlen); [done|].
  rewrite Hloop. cbn [tables with_tables].
  destruct (wf_reps _ Hwf) as [Es HF].
  destruct (reps_after_delete hkey _ _ _ HF (Delete_loop_pointwise _ _ _ _ Hloop))
    as (Es' & HF' & Hsame).
  assert (ts ≠ []) as Hts by (destruct ts, (tables kv); done).
  assert (∀ h, h ≠ hkey → newest_entry Es' h = newest_entry Es h) as Hview.
  { intros h Hh. apply newest_entry_pointwise.
    eapply Forall2_impl; [exact Hsame|]. intros E E' HE. by apply HE. }
  assert (∀ h, h ≠ hkey → Get (with_tables kv ts) h = Get kv h) as Hsame_get.
  { intros h Hh. rewrite (Get_view (with_tables kv ts) Es') by done.
    rewrite (Get_view kv Es) by done. by rewrite Hview. }
  destruct (negb _); [intros [= <- _]; exact Hsame_get|].
  destruct (ts !! 0%nat) as [t|]; [|done].
  destruct (garbage_ratio_reached t); intros [= <- _]; [|exact Hsame_get].
  intros h Hh.
  rewrite (Get_view _ (Es' ++ [∅])).
  - rewrite newest_entry_app, lookup_empty, (Get_view kv Es) by done.
    by rewrite Hview.
  - cbn. by destruct ts.
  - cbn [tables with_tables]. apply Forall2_app; [done|].
    constructor; [|constructor]. apply table_rep_newTable.
    pose proof (Inuse_nonneg (with_tables kv ts) (reps_wf _ _ HF')). lia.
Qed.

End MapBehaviour.

(** * How much a Put allocates *)

Section PutAllocation.
Context {Entry : Type} `{!EntryCodec Entry} `{!Msgpack} `{!RawTableOps Entry}.
Implicit Types (kv : KVStore) (t : table) (ts : list table) (hkey : Z) (value : Entry).


Lemma Inuse_new_table kv size :
  Inuse (with_tables kv (tables kv ++ [newTable size])) = Inuse kv.
Proof. unfold Inuse. cbn [tables with_tables]. rewrite fold_left_app. cbn. lia. Qed.



Lemma Put_loop_result fuel : ∀ kv hkey value res kv' res',
  Put_loop fuel kv hkey value res = Returned (kv', res') →
  res' = res ∨ (length (tables kv) < length (tables kv'))%nat.
Proof.
  induction fuel as [|fuel IH]; intros kv hkey value res kv' res'; [done|].
  cbn [Put_loop]. destruct (tables kv !! _) as [t|]; [|done].
  destruct (t_put hkey value t) as [t' [err|]] eqn:Hput.
  - destruct (t_put_full _ _ _ _ _ Hput) as (-> & -> & _).
    intros Hrun. right. apply Put_loop_length in Hrun. cbn in Hrun.
    rewrite length_app, length_insert in Hrun. cbn in Hrun. lia.
  - intros [= <- <-]. by left.
Qed.

Lemma evolves_length kv kv' :
  evolves kv kv' → (length (tables kv) ≤ length (tables kv'))%nat.
Proof.
  induction 1 as [kv | kv fuel hkey value kv1 err kv2 Hstep _ IH
                 | kv fuel hkey value kv1 err kv2 Hstep _ IH
                 | kv hkey kv1 err kv2 Hstep _ IH
                 | kv hkey data kv1 err kv2 Hstep _ IH ]; [done|..].
  - apply Put_length in Hstep. lia.
  - apply PutRaw_length in Hstep. lia.
  - apply Delete_length in Hstep. lia.
  - apply UpdateTTL_length in Hstep. lia.
Qed.

Lemma Delete_Fragmented_length kv hkey kv' :
  Delete kv hkey = Returned (kv', Some ErrFragmented) → length (tables kv') = 2%nat.
Proof.
  unfold Delete. destruct (tables_empty kv); [done|].
  destruct (Delete_loop _ _ _) as [ts| |]; [|done..]. cbn [tables with_tables].
  destruct (Nat.eqb_spec (length ts) 1) as [Hone|]; [|done]. cbn [negb].
  destruct (ts !! 0%nat) as [t|]; [|done].
  destruct (garbage_ratio_reached t); [|done].
  intros [= <-]. cbn. rewrite length_app. cbn. lia.
Qed.

Lemma Delete_long_chain kv hkey kv' err :
  (2 ≤ length (tables kv))%nat → Delete kv hkey = Returned (kv', err) → err = None.
Proof.
  intros Hlong. unfold Delete. destruct (tables_empty kv); [done|].
  destruct (Delete_loop_returns (tables kv) hkey (length (tables kv)))
    as (ts & -> & Hlen); [done|]. cbn [tables with_tables].
  destruct (Nat.eqb_spec (length ts) 1) as [Hone|]; [lia|]. by intros [= _ <-].
Qed.

(** X5: [ErrFragmented] is for good. Once [Put] or [Delete] has returned
    it, whatever [Put], [PutRaw], [Delete] and [UpdateTTL] do to the
    engine afterwards, [Export] fails with [ErrFragmented] and [Delete]
    returns [nil]: nothing in [kvstore.go] takes a table off the chain. *)
Theorem Fragmented_is_permanent kv kv1 kv2 :
  (∃ fuel hkey value, Put fuel kv hkey value = Returned (kv1, Some ErrFragmented))
  ∨ (∃ hkey, Delete kv hkey = Returned (kv1, Some ErrFragmented)) →
  evolves kv1 kv2 →
  Export kv2 = Returned (None, Some ErrFragmented)
  ∧ ∀ hkey kv3 err, Delete kv2 hkey = Returned (kv3, err) → err = None.
Proof.
  intros Hfrag Hevolves.
  assert (2 ≤ length (tables kv1))%nat as Hlong.
  { destruct Hfrag as [(fuel & hkey & value & Hput)|(hkey & Hdel)].
    - unfold Put in Hput. destruct (tables_empty kv) eqn:Hguard; [done|].
      apply tables_nonempty in Hguard.
      destruct (Put_loop_result _ _ _ _ _ _ _ Hput) as [[=]|Hlt].
      destruct (tables kv); [done|]. cbn in Hlt. lia.
    - by rewrite (Delete_Fragmented_length _ _ _ Hdel). }
  apply evolves_length in Hevolves.
  split.
  - unfold Export. by destruct (Nat.eqb_spec (length (tables kv2)) 1); [lia|].
  - intros hkey kv3 err. apply Delete_long_chain. lia.
Qed.

End PutAllocation.

(** * Stats, Check and Fork *)

Section Accounting.
Context {Entry : Type} `{!EntryCodec Entry} `{!Msgpack} `{!RawTableOps Entry}.
Implicit Types (kv : KVStore) (t : table) (ts : list table) (hkey : Z).

Lemma Stats_fold ts : ∀ a i g,
  fold_left
    (λ (stats : gmap string Z) t,
       let s1 := <["allocated" := default 0 (stats !! "allocated") + allocated t]> stats in
       let s2 := <["inuse" := default 0 (s1 !! "inuse") + inuse t]> s1 in
       <["garbage" := default 0 (s2 !! "garbage") + garbage t]> s2)
    ts (<["garbage" := g]> (<["inuse" := i]> (<["allocated" := a]> ∅)))
  = <["garbage" := fold_left (λ sum t, sum + garbage t) ts g]>
      (<["inuse" := fold_left (λ sum t, sum + inuse t) ts i]>
         (<["allocated" := fold_left (λ sum t, sum + allocated t) ts a]> ∅)).
Proof.
  induction ts as [|t ts IH]; intros a i g; [done|].
  cbn [fold_left]. rewrite <- IH. f_equal.
Qed.

(** X6: [Stats] returns exactly the three keys "allocated", "inuse" and
    "garbage", each the sum of that counter over all the tables, and its
    "inuse" is what [Inuse] returns. *)
Theorem Stats_totals kv :
  Stats kv = <["garbage" := total garbage (tables kv)]>
               (<["inuse" := Inuse kv]>
                  (<["allocated" := total allocated (tables kv)]> ∅))
  ∧ Stats kv !! "inuse" = Some (Inuse kv).
Proof.
  assert (Stats kv = <["garbage" := total garbage (tables kv)]>
               (<["inuse" := Inuse kv]>
                  (<["allocated" := total allocated (tables kv)]> ∅))) as Heq
    by apply Stats_fold.
  split; [done|]. rewrite Heq.
  by rewrite lookup_insert_ne, lookup_insert.
Qed.

Lemma total_shift (counter : table → Z) ts : ∀ a,
  fold_left (λ sum t, sum + counter t) ts a = a + total counter ts.
Proof.
  unfold total. induction ts as [|t ts IH]; intros a; cbn [fold_left]; [lia|].
  rewrite (IH (a + counter t)), (IH (0 + counter t)). lia.
Qed.

Lemma total_cons (counter : table → Z) t ts :
  total counter (t :: ts) = counter t + total counter ts.
Proof. unfold total at 1. cbn [fold_left]. by rewrite total_shift. Qed.


Lemma Check_loop_scan ts hkey : ∀ n,
  (n ≤ length ts)%nat →
  (Check_loop ts hkey n = Returned true
   ∧ ∃ e, scan_tables (t_get hkey) None ts n = Returned (Some e, None))
  ∨ (Check_loop ts hkey n = Returned false
     ∧ scan_tables (t_get hkey) None ts n = Returned (None, Some ErrKeyNotFound)).
Proof.
  induction n as [|i IH]; intros Hn; [by right|].
  cbn [Check_loop scan_tables].
  destruct (lookup_lt_is_Some_2 ts i) as [t ->]; [lia|].
  unfold t_get. destruct (hkeys t !! hkey) as [off|].
  - left. split; [done|]. by eexists.
  - apply IH. lia.
Qed.

(** X8: [Check] and [Get] agree: [Check] returns true exactly when [Get]
    returns an entry and a [nil] error, and false exactly when [Get]
    returns [ErrKeyNotFound]. *)
Theorem Check_agrees_with_Get kv hkey :
  tables kv ≠ [] →
  (Check kv hkey = Returned true ↔ ∃ e, Get kv hkey = Returned (Some e, None))
  ∧ (Check kv hkey = Returned false
     ↔ Get kv hkey = Returned (None, Some ErrKeyNotFound)).
Proof.
  intros Hne. unfold Check, Get. rewrite tables_empty_false by done.
  destruct (Check_loop_scan (tables kv) hkey (length (tables kv)))
    as [[-> [e ->]]|[-> ->]]; [done|..].
  - split; (split; [try done; by eexists|try done]).
  - split; (split; [try done|try done]). by intros [e [=]].
Qed.

Lemma Put_loop_options fuel : ∀ kv hkey (value : Entry) res kv' res',
  Put_loop fuel kv hkey value res = Returned (kv', res') → options kv' = options kv.
Proof.
  induction fuel as [|fuel IH]; intros kv hkey value res kv' res'; [done|].
  cbn [Put_loop]. destruct (tables kv !! _) as [t|]; [|done].
  destruct (t_put hkey value t) as [t' [[]|]]; intros Hrun;
    try (by injection Hrun as <- _).
  by apply IH in Hrun.
Qed.

Lemma PutRaw_loop_options fuel : ∀ kv hkey value res kv' res',
  PutRaw_loop fuel kv hkey value res = Returned (kv', res') → options kv' = options kv.
Proof.
  induction fuel as [|fuel IH]; intros kv hkey value res kv' res'; [done|].
  cbn [PutRaw_loop]. destruct (tables kv !! _) as [t|]; [|done].
  destruct (t_putRaw hkey value t) as [t' [[]|]]; intros Hrun;
    try (by injection Hrun as <- _).
  by apply IH in Hrun.
Qed.

Lemma reachable_TableSize kv : reachable kv → is_Some (options kv !! "TableSize").
Proof.
  induction 1 as [opts kv Hnew | kv kv' _ IH Hfork | kv data kv' _ _ Himport
                 | kv fuel hkey value kv' err _ IH Hstep
                 | kv fuel hkey value kv' err _ IH Hstep
                 | kv hkey kv' err _ IH Hstep
                 | kv hkey data kv' err _ IH Hstep ].
  - unfold New in Hnew. destruct (opts !! "TableSize") eqn:Hsize; [|done].
    injection Hnew as <-. cbn. by rewrite Hsize.
  - unfold Fork, New in Hfork. destruct IH as [size Hsize]. rewrite Hsize in Hfork.
    injection Hfork as <-. cbn. by rewrite Hsize.
  - unfold Import in Himport. destruct (Unmarshal data) as [tr|]; [|done].
    unfold New in Himport. rewrite lookup_insert in Himport. cbn in Himport.
    injection Himport as <-. cbn. by rewrite lookup_insert.
  - unfold Put in Hstep. destruct (tables_empty kv); [done|].
    by rewrite (Put_loop_options _ _ _ _ _ _ _ Hstep).
  - unfold PutRaw in Hstep. destruct (tables_empty kv); [done|].
    by rewrite (PutRaw_loop_options _ _ _ _ _ _ _ Hstep).
  - unfold Delete in Hstep. destruct (tables_empty kv); [done|].
    destruct (Delete_loop _ _ _) as [ts| |]; [|done..].
    destruct (negb _); [by injection Hstep as <- _|].
    destruct (_ !! 0%nat) as [t|]; [|done].
    by destruct (garbage_ratio_reached t); injection Hstep as <- _.
  - unfold UpdateTTL in Hstep. destruct (tables_empty kv); [done|].
    destruct (UpdateTTL_loop _ _ _ _) as [[ts e]| |]; [|done..].
    by injection Hstep as <- _.
Qed.

(** X9: [Fork] of an engine that the methods have produced never fails:
    it returns an engine with the same options and one empty table of
    [TableSize] bytes, whatever the forked engine holds: [Len] is 0 and
    [Get] finds no hkey. *)
Theorem Fork_is_empty kv :
  reachable kv →
  ∃ size fresh,
    options kv !! "TableSize" = Some size
    ∧ Fork kv = (Some fresh, None)
    ∧ tables fresh = [newTable size]
    ∧ options fresh = options kv
    ∧ Len fresh = 0
    ∧ ∀ hkey, Get fresh hkey = Returned (None, Some ErrKeyNotFound).
Proof.
  intros [size Hsize]%reachable_TableSize.
  exists size, {| tables := [newTable size]; options := options kv |}.
  split; [done|]. split; [by unfold Fork, New; rewrite Hsize|].
  repeat (split; [done|]). done.
Qed.

End Accounting.

(** * Exporting an imported engine *)

Section ExportAgain.
Context {Entry : Type} `{!EntryCodec Entry} `{!Msgpack} `{!MsgpackLaws}.
Implicit Types (kv recv : KVStore) (t : table).


End ExportAgain.

(** * Range and MatchOnKey *)

Section Iteration.
Context {Entry : Type} `{!EntryCodec Entry} `{!Walk} `{!WalkLaws}.
Context {St : Type}.
Implicit Types (kv : KVStore) (t : table) (ts : list table) (hkey : Z).
Implicit Types (f : Z → option Entry → St → bool * St) (s : St).

Lemma Range_keys_feed f t keys :
  (∀ hkey entry s, fst (f hkey entry s) = true) →
  ∀ s rest, feed f (map (λ hkey, (hkey, t)) keys ++ rest) s
            = feed f rest (Range_keys f t keys s).
Proof.
  intros Hmore. induction keys as [|hkey keys IH]; intros s rest; [done|].
  cbn [map app feed Range_keys].
  destruct (t_get hkey t) as [entry prev]. cbn [fst].
  specialize (Hmore hkey entry s). destruct (f hkey entry s) as [more s'].
  cbn in Hmore. subst more. cbn [negb]. apply IH.
Qed.

Lemma Range_loop_feed f ts :
  (∀ hkey entry s, fst (f hkey entry s) = true) →
  ∀ n s, (n ≤ length ts)%nat →
         Range_loop f ts n s = Returned (feed f (walk ts n) s).
Proof.
  intros Hmore. induction n as [|i IH]; intros s Hn; [done|].
  cbn [Range_loop walk].
  destruct (lookup_lt_is_Some_2 ts i) as [t ->]; [lia|].
  rewrite IH by lia. by rewrite Range_keys_feed.
Qed.

Lemma total_snoc (counter : table → Z) ts t :
  total counter (ts ++ [t]) = total counter ts + counter t.
Proof. unfold total. by rewrite fold_left_app. Qed.

Lemma range_order_length i (m : gmap Z Z) : length (range_order i m) = size m.
Proof.
  rewrite (Permutation_length (range_order_keys i m)).
  by rewrite length_fmap, length_map_to_list.
Qed.

Lemma walk_length ts : ∀ n,
  (n ≤ length ts)%nat →
  Z.of_nat (length (walk ts n))
  = total (λ t, Z.of_nat (size (hkeys t))) (take n ts).
Proof.
  induction n as [|i IH]; intros Hn; [done|].
  cbn [walk]. destruct (lookup_lt_is_Some_2 ts i) as [t Ht]; [lia|].
  rewrite Ht, (take_S_r _ _ _ Ht), total_snoc, <- IH by lia.
  rewrite length_app, length_map, range_order_length. lia.
Qed.

Lemma walk_elem ts hkey t : ∀ n,
  (n ≤ length ts)%nat →
  (hkey, t) ∈ walk ts n ↔ ∃ i, (i < n)%nat ∧ ts !! i = Some t ∧ holds hkey t.
Proof.
  induction n as [|i IH]; intros Hn; cbn [walk].
  - split; [by intros ?%elem_of_nil|]. intros (i & ? & _). lia.
  - destruct (lookup_lt_is_Some_2 ts i) as [u Hu]; [lia|]. rewrite Hu.
    rewrite elem_of_app, IH, list_elem_of_fmap by lia. split.
    + intros [(h & [= <- <-] & Hin)|(j & ? & ? & ?)].
      * exists i. split; [lia|]. split; [done|].
        rewrite range_order_keys in Hin.
        apply list_elem_of_fmap in Hin as ([h off] & -> & Hin).
        apply elem_of_map_to_list in Hin. by exists off.
      * exists j. split; [lia|done].
    + intros (j & Hj & Hlook & [off Hoff]).
      destruct (decide (j = i)) as [->|].
      * left. rewrite Hu in Hlook. injection Hlook as ->.
        exists hkey. split; [done|]. rewrite range_order_keys.
        apply list_elem_of_fmap. exists (hkey, off). split; [done|].
        by apply elem_of_map_to_list.
      * right. exists j. split; [lia|]. split; [done|by exists off].
Qed.

(** X11: [Range] with a callback that never answers [false] calls it on
    the hkeys of the last table, then of the one before, down to the
    first, each hkey with the entry of that table: on every hkey of every
    table, also on those that a newer table has again. *)
Theorem Range_to_the_end kv f s :
  tables kv ≠ [] →
  (∀ hkey entry s, fst (f hkey entry s) = true) →
  Range kv f s = Returned (feed f (walk (tables kv) (length (tables kv))) s)
  ∧ ∀ hkey t, (hkey, t) ∈ walk (tables kv) (length (tables kv))
              ↔ t ∈ tables kv ∧ holds hkey t.
Proof.
  intros Hne Hmore. split.
  - unfold Range. rewrite tables_empty_false by done. by apply Range_loop_feed.
  - intros hkey t. rewrite walk_elem, list_elem_of_lookup by done. split.
    + intros (i & _ & Hi & Hholds). split; [by exists i|done].
    + intros [[i Hi] Hholds]. exists i. split; [by eapply lookup_lt_Some|done].
Qed.

Lemma feed_count (l : list (Z * table)) : ∀ n : Z,
  feed (λ (_ : Z) (_ : option Entry) (n : Z), (true, n + 1)) l n
  = n + Z.of_nat (length l).
Proof.
  induction l as [|[hkey t] l IH]; intros n; cbn [feed length]; [lia|].
  rewrite IH. lia.
Qed.

End Iteration.

Section IterationCounts.
Context {Entry : Type} `{!EntryCodec Entry} `{!Walk} `{!WalkLaws}.
Implicit Types (kv : KVStore) (t : table) (ts : list table) (hkey : Z).

(** X12: a callback that counts its calls and never answers [false] is
    called by [Range] exactly [Len()] times. *)
Theorem Range_calls_Len_times kv :
  tables kv ≠ [] →
  Range kv (λ (_ : Z) (_ : option Entry) (n : Z), (true, n + 1)) 0
  = Returned (Len kv).
Proof.
  intros Hne. unfold Range. rewrite tables_empty_false by done.
  rewrite Range_loop_feed by done. rewrite feed_count.
  rewrite (walk_length (tables kv) (length (tables kv))) by done.
  by rewrite firstn_all.
Qed.

End IterationCounts.

Section IterationStops.
Context {Entry : Type} `{!EntryCodec Entry} `{!Walk} `{!WalkLaws}.
Context {St : Type}.
Implicit Types (kv : KVStore) (t : table) (ts : list table) (hkey : Z).
Implicit Types (f : Z → option Entry → St → bool * St) (s : St).

Lemma Range_keys_break f t keys s :
  (∀ hkey entry s, fst (f hkey entry s) = false) →
  Range_keys f t keys s
  = fold_left (λ s p, snd (f (fst p) (fst (t_get (fst p) (snd p))) s))
              (map (λ hkey, (hkey, t)) (take 1 keys)) s.
Proof.
  intros Hstop. destruct keys as [|hkey keys]; [done|].
  cbn [Range_keys take map fold_left fst snd].
  destruct (t_get hkey t) as [entry prev]. cbn [fst].
  specialize (Hstop hkey entry s). destruct (f hkey entry s) as [more s'].
  cbn in Hstop. by subst more.
Qed.

Lemma first_keys_length ts : ∀ n,
  (n ≤ length ts)%nat →
  length (first_keys ts n) = length (filter (λ t, hkeys t ≠ ∅) (take n ts)).
Proof.
  induction n as [|i IH]; intros Hn; [done|].
  cbn [first_keys]. destruct (lookup_lt_is_Some_2 ts i) as [t Ht]; [lia|].
  rewrite Ht, (take_S_r _ _ _ Ht), filter_app, !length_app, length_map, <- IH by lia.
  rewrite Nat.add_comm. f_equal.
  pose proof (range_order_length i (hkeys t)) as Hlen.
  rewrite filter_cons, filter_nil.
  destruct (decide (hkeys t ≠ ∅)) as [Hsome|Hnone].
  - destruct (range_order i (hkeys t)); [|done].
    cbn in Hlen. symmetry in Hlen. by apply map_size_empty_iff in Hlen.
  - apply dec_stable in Hnone. rewrite Hnone, map_size_empty in Hlen.
    rewrite Hnone. by destruct (range_order i ∅).
Qed.

(** X13: a [false] from the callback ends the walk of one table only:
    [Range] goes on with the table before. With a callback that always
    answers [false], [Range] calls it once for every table that is not
    empty, on the first hkey of the walk of that table. *)
Theorem Range_break_leaves_one_table kv f s :
  tables kv ≠ [] →
  (∀ hkey entry s, fst (f hkey entry s) = false) →
  Range kv f s
  = Returned (fold_left (λ s p, snd (f (fst p) (fst (t_get (fst p) (snd p))) s))
                        (first_keys (tables kv) (length (tables kv))) s)
  ∧ length (first_keys (tables kv) (length (tables kv)))
    = length (filter (λ t, hkeys t ≠ ∅) (tables kv)).
Proof.
  intros Hne Hstop. split.
  - unfold Range. rewrite tables_empty_false by done.
    assert (∀ n s, (n ≤ length (tables kv))%nat →
              Range_loop f (tables kv) n s
              = Returned (fold_left
                            (λ s p, snd (f (fst p) (fst (t_get (fst p) (snd p))) s))
                            (first_keys (tables kv) n) s)) as Hloop.
    { induction n as [|i IH]; intros s' Hn; [done|].
      cbn [Range_loop first_keys].
      destruct (lookup_lt_is_Some_2 (tables kv) i) as [t ->]; [lia|].
      rewrite IH by lia. by rewrite fold_left_app, <- Range_keys_break. }
    by apply Hloop.
  - rewrite first_keys_length by done. by rewrite firstn_all.
Qed.

Lemma MatchOnKey_keys_feed (r : Regexp) f t keys : ∀ s rest,
  feed f (List.filter (matching r) (map (λ hkey, (hkey, t)) keys ++ rest)) s
  = (let '(stop, s') := MatchOnKey_keys r f t keys s in
     if stop then s' else feed f (List.filter (matching r) rest) s').
Proof.
  induction keys as [|hkey keys IH]; intros s rest; [done|].
  cbn [map app List.filter MatchOnKey_keys].
  unfold matching at 1. cbn [fst snd].
  destruct (t_getRawKey hkey t) as [key found]. cbn [fst].
  destruct (regexp_Match r key); cbn [negb]; [|apply IH].
  cbn [feed]. destruct (t_get hkey t) as [data prev]. cbn [fst].
  destruct (f hkey data s) as [[] s']; cbn [negb]; [apply IH|done].
Qed.

Lemma MatchOnKey_loop_feed (r : Regexp) f ts : ∀ n s,
  (n ≤ length ts)%nat →
  MatchOnKey_loop r f ts n s
  = Returned (None, feed f (List.filter (matching r) (walk ts n)) s).
Proof.
  induction n as [|i IH]; intros s Hn; [done|].
  cbn [MatchOnKey_loop walk].
  destruct (lookup_lt_is_Some_2 ts i) as [t ->]; [lia|].
  rewrite MatchOnKey_keys_feed.
  destruct (MatchOnKey_keys r f t _ s) as [[] s']; [done|].
  apply IH. lia.
Qed.

(** X14: [MatchOnKey] returns the error of [regexp.Compile] without a
    call of the callback; otherwise it calls the callback on the hkeys
    whose raw key matches, in the order of [Range], until the callback
    answers [false], which ends the whole iteration (not that of one
    table, as in [Range]), and returns [nil]. *)
Theorem MatchOnKey_feeds_matching kv expr f s :
  tables kv ≠ [] →
  MatchOnKey kv expr f s
  = match regexp_Compile expr with
    | inr err => Returned (Some err, s)
    | inl r =>
        Returned (None,
                  feed f (List.filter (matching r)
                            (walk (tables kv) (length (tables kv)))) s)
    end.
Proof.
  intros Hne. unfold MatchOnKey. rewrite tables_empty_false by done.
  destruct (regexp_Compile expr) as [r|err]; [|done].
  by apply MatchOnKey_loop_feed.
Qed.

End IterationStops.

(** * The lock protocol, continued *)

Section LockResults.
Import dmap.
Context {W env : Type} `{!Service W env}.
Implicit Types (dm : DMap) (key : string) (e : env) (w : W).

Lemma tryLock_loop_result fuel dm e : ∀ w,
  fst (tryLock_loop fuel dm e w) ≠ Returned (Some ErrKeyFound)
  ∧ (∀ msg, fst (tryLock_loop fuel dm e w) ≠ Panicked msg)
  ∧ (fst (tryLock_loop fuel dm e w) = Returned None →
     ∃ w0, dm_put dm e w0 = (snd (tryLock_loop fuel dm e w), None)).
Proof.
  induction fuel as [|fuel IH]; intros w; [done|].
  cbn [tryLock_loop]. destruct (select w) as [w1 []]; [|done..].
  destruct (dm_put dm e w1) as [w2 [err|]] eqn:Hput.
  - destruct (decide (err = ErrKeyFound)) as [->|Hne]; [apply IH|].
    cbn. split; [congruence|done].
  - cbn. split; [done|]. split; [done|]. intros _. by exists w1.
Qed.

(** X15: [tryLock] never returns [ErrKeyFound], the answer of [put] that
    makes it try again, and does not panic; when it returns [nil], the
    last thing it did was a [put] that returned [nil]. *)
Theorem tryLock_takes_KeyFound fuel dm e (deadline : Z) w :
  fst (tryLock fuel dm e deadline w) ≠ Returned (Some ErrKeyFound)
  ∧ (∀ msg, fst (tryLock fuel dm e deadline w) ≠ Panicked msg)
  ∧ (fst (tryLock fuel dm e deadline w) = Returned None →
     ∃ w0, dm_put dm e w0 = (snd (tryLock fuel dm e deadline w), None)).
Proof.
  unfold tryLock. destruct (dm_put dm e w) as [w1 [err|]] eqn:Hput.
  - destruct (decide (err = ErrKeyFound)) as [->|Hne]; [apply tryLock_loop_result|].
    cbn. split; [congruence|done].
  - cbn. split; [done|]. split; [done|]. intros _. by exists w.
Qed.

(** X16: [lockKey], and so [Lock] and [LockWithTimeout], returns a
    [LockContext] exactly when it returns a [nil] error, and then a [put]
    of the request that [prepareAndSerialize] built for the token, the
    condition [IfNotFound] and the given opcode and timeout has returned
    [nil]. *)
Theorem lockKey_context_or_error fuel dm opcode key (timeout deadline : Z) w lc err w' :
  lockKey fuel dm opcode key timeout deadline w = (Returned (lc, err), w') →
  (is_Some lc ↔ err = None)
  ∧ (err = None →
     ∃ w1 w2 e w0,
       dm_prepareAndSerialize dm opcode key
         (go_copy (replicate 16 "000"%byte) (fst (snd (rand_Read 16 w))))
         timeout IfNotFound w1 = (w2, inl e)
       ∧ dm_put dm e w0 = (w', None)).
Proof.
  unfold lockKey.
  destruct (rand_Read 16 w) as [w1 [read [rerr|]]]; cbn [fst snd].
  { intros [= <- <- <-]. split; [|done]. split; [by intros [? [=]]|done]. }
  destruct (dm_prepareAndSerialize _ _ _ _ _ _ _) as [w2 [e|perr]] eqn:Hprep.
  2:{ intros [= <- <- <-]. split; [|done]. split; [by intros [? [=]]|done]. }
  destruct (tryLock fuel dm e deadline w2) as [ret w3] eqn:Htry.
  destruct ret as [[terr|]| |]; [| |done..].
  - intros [= <- <- <-]. split; [|done]. split; [by intros [? [=]]|done].
  - intros [= <- <- <-]. split; [done|]. intros _.
    exists w1, w2, e.
    assert (fst (tryLock fuel dm e deadline w2) = Returned None) as Hnil
      by by rewrite Htry.
    unfold tryLock in Hnil, Htry.
    destruct (dm_put dm e w2) as [w4 [perr|]] eqn:Hput.
    + destruct (decide (perr = ErrKeyFound)) as [->|Hne]; [|done].
      destruct (tryLock_loop_result fuel dm e (context_WithTimeout deadline w4))
        as (_ & _ & Hlast).
      destruct (Hlast Hnil) as [w0 Hw0]. exists w0.
      by rewrite Htry in Hw0.
    + injection Htry as <-. by exists w2.
Qed.

End LockResults.

(** * What Put and Delete do to Len *)

Section LenFacts.
Context {Entry : Type} `{!EntryCodec Entry} `{!Msgpack}.
Implicit Types (kv : KVStore) (t : table) (ts : list table) (hkey : Z) (value : Entry).

Lemma total_insert (counter : table → Z) ts : ∀ i t t',
  ts !! i = Some t →
  total counter (<[i := t']> ts) = total counter ts - counter t + counter t'.
Proof.
  induction ts as [|u ts IH]; intros i t t' Hi; [done|].
  destruct i as [|i]; cbn -[total] in Hi |- *.
  - injection Hi as ->. rewrite !total_cons. lia.
  - rewrite !total_cons, (IH _ _ _ Hi). lia.
Qed.

Lemma t_put_size hkey value t t' :
  t_put hkey value t = (t', None) →
  Z.of_nat (size (hkeys t'))
  = Z.of_nat (size (hkeys t)) + (if decide (holds hkey t) then 0 else 1).
Proof.
  unfold t_put, t_delete, holds. destruct (_ <? _); [done|].
  intros [= <-]. cbn [hkeys].
  destruct (hkeys t !! hkey) as [off|] eqn:Hoff; cbn [fst hkeys].
  - rewrite decide_True by done.
    rewrite map_size_insert_None by apply lookup_delete_eq.
    rewrite map_size_delete, Hoff.
    assert (size (hkeys t) ≠ 0%nat) as Hsize.
    { intros Hzero%map_size_empty_iff. by rewrite Hzero in Hoff. }
    lia.
  - rewrite decide_False by (by intros [? [=]]).
    rewrite map_size_insert_None by done. lia.
Qed.

(** X17: a [Put] that returns [nil] leaves [Len] as it is when the
    newest table has the hkey and adds one when it has not; a [Put] that
    returns [ErrFragmented] adds one to [Len] also when the hkey is
    stored already, in an older table: [Len] counts the hkey once for
    every table that has it. *)
Theorem Put_Len fuel kv hkey value kv' res :
  Put fuel kv hkey value = Returned (kv', res) →
  ∃ t, tables kv !! (length (tables kv) - 1)%nat = Some t
       ∧ Len kv' = Len kv + match res with
                            | None => if decide (holds hkey t) then 0 else 1
                            | Some _ => 1
                            end.
Proof.
  intros Hput.
  revert Hput. unfold Put. destruct (tables_empty kv) eqn:Hguard; [done|].
  apply tables_nonempty in Hguard.
  destruct (last_table_exists _ Hguard) as [t Hlast]. intros Hput. exists t.
  split; [done|].
  change (Len kv') with (total (λ t, Z.of_nat (size (hkeys t))) (tables kv')).
  change (Len kv) with (total (λ t, Z.of_nat (size (hkeys t))) (tables kv)).
  destruct fuel as [|fuel]; [done|]. cbn [Put_loop] in Hput. rewrite Hlast in Hput.
  destruct (t_put hkey value t) as [t' [err|]] eqn:Htput.
  - destruct (t_put_full _ _ _ _ _ Htput) as (-> & -> & Hfull).
    rewrite list_insert_id, with_tables_id in Hput by done.
    destruct (Z.le_gt_cases (Z.of_nat (length (Encode value))) (Inuse kv * 2))
      as [Hfits|Hbig].
    2:{ rewrite (Put_loop_diverges fuel _ hkey value _ (newTable (Inuse kv * 2)))
          in Hput; [done|apply last_table_append|cbn; lia|].
        by rewrite Inuse_new_table. }
    destruct fuel as [|fuel]; [done|].
    cbn [Put_loop tables with_tables] in Hput.
    rewrite last_table_append in Hput.
    destruct (t_put_succeeds (newTable (Inuse kv * 2)) hkey value) as [nt Hnt];
      [cbn; lia|].
    rewrite Hnt in Hput. injection Hput as <- <-. cbn [tables with_tables].
    rewrite length_app. cbn [length].
    replace (length (tables kv) + 1 - 1)%nat with (length (tables kv) + 0)%nat by lia.
    rewrite insert_app_r. cbn [insert list_insert].
    rewrite total_snoc, (t_put_size _ _ _ _ Hnt). cbn [hkeys newTable].
    rewrite decide_False by (by intros [? [=]]).
    rewrite map_size_empty. lia.
  - injection Hput as <- <-. cbn [tables with_tables].
    rewrite (total_insert _ _ _ t t' Hlast), (t_put_size _ _ _ _ Htput). lia.
Qed.

Lemma Delete_loop_Len ts hkey : ∀ n,
  (n ≤ length ts)%nat →
  ∃ ts', Delete_loop ts hkey n = Returned ts'
         ∧ ((Check_loop ts hkey n = Returned true
             ∧ total (λ t, Z.of_nat (size (hkeys t))) ts'
               = total (λ t, Z.of_nat (size (hkeys t))) ts - 1)
            ∨ (Check_loop ts hkey n = Returned false ∧ ts' = ts)).
Proof.
  induction n as [|i IH]; intros Hn; [exists ts; by split; [|right]|].
  cbn [Delete_loop Check_loop].
  destruct (lookup_lt_is_Some_2 ts i) as [t Ht]; [lia|]. rewrite Ht.
  unfold t_delete. destruct (hkeys t !! hkey) as [off|] eqn:Hoff.
  - eexists. split; [done|]. left. split; [done|].
    rewrite (total_insert _ _ _ t _ Ht). cbn [hkeys].
    rewrite map_size_delete, Hoff.
    assert (size (hkeys t) ≠ 0%nat) as Hsize.
    { intros Hzero%map_size_empty_iff. by rewrite Hzero in Hoff. }
    lia.
  - rewrite list_insert_id by done. apply IH. lia.
Qed.

(** X18: [Delete] takes exactly one off [Len] when [Check] finds the
    hkey, and leaves [Len] as it is when [Check] does not, whether or not
    it appends a table. *)
Theorem Delete_Len kv hkey kv' err :
  Delete kv hkey = Returned (kv', err) →
  (Check kv hkey = Returned true ∧ Len kv' = Len kv - 1)
  ∨ (Check kv hkey = Returned false ∧ Len kv' = Len kv).
Proof.
  unfold Delete, Check. destruct (tables_empty kv); [done|].
  change (Len kv') with (total (λ t, Z.of_nat (size (hkeys t))) (tables kv')).
  change (Len kv) with (total (λ t, Z.of_nat (size (hkeys t))) (tables kv)).
  destruct (Delete_loop_Len (tables kv) hkey (length (tables kv)))
    as (ts & -> & Hlen); [done|].
  cbn [tables with_tables].
  assert (total (λ t, Z.of_nat (size (hkeys t))) (tables kv')
          = total (λ t, Z.of_nat (size (hkeys t))) ts →
          (Check_loop (tables kv) hkey (length (tables kv)) = Returned true
           ∧ total (λ t, Z.of_nat (size (hkeys t))) (tables kv')
             = total (λ t, Z.of_nat (size (hkeys t))) (tables kv) - 1)
          ∨ (Check_loop (tables kv) hkey (length (tables kv)) = Returned false
             ∧ total (λ t, Z.of_nat (size (hkeys t))) (tables kv')
               = total (λ t, Z.of_nat (size (hkeys t))) (tables kv))) as Hsame.
  { intros ->. destruct Hlen as [[-> ->]|[-> ->]]; [by left|by right]. }
  destruct (negb _); [intros [= <- _]; by apply Hsame|].
  destruct (ts !! 0%nat) as [t|]; [|done].
  destruct (garbage_ratio_reached t); intros [= <- _]; apply Hsame; [|done].
  cbn [tables with_tables]. rewrite total_snoc. cbn [hkeys newTable].
  rewrite map_size_empty. lia.
Qed.

End LenFacts.

(** * The further properties at the sample engines *)

Section MoreAtSamples.
Import sample.

#[global] Instance walk_laws : WalkLaws.
Proof. split. by intros i m. Qed.

Lemma small_grown_Put :
  Put 2 small_garbage 9 (payload 13 "066"%byte)
  = Returned (small_grown, Some ErrFragmented).
Proof. vm_compute. reflexivity. Qed.

Lemma small_again_Put :
  Put 2 small_garbage 7 (payload 13 "067"%byte)
  = Returned (small_again, Some ErrFragmented).
Proof. vm_compute. reflexivity. Qed.

Lemma small_two_wf : wf small_two.
Proof. apply wf_state_after, wf_state_after, wf_state_after, small_fresh_wf. Qed.

(** [Put_is_insert_for_Get] at [small_garbage]: the put of hkey 9 goes to
    a second table; hkey 9 is found, hkey 7 as before. *)
Lemma Put_is_insert_for_Get_witness :
  wf small_garbage
  ∧ Put 2 small_garbage 9 (payload 13 "066"%byte)
    = Returned (small_grown, Some ErrFragmented)
  ∧ Get small_grown 9 = Returned (Some (payload 13 "066"%byte), None)
  ∧ Get small_grown 7 = Get small_garbage 7.
Proof.
  pose proof (Put_is_insert_for_Get small_garbage 9 (payload 13 "066"%byte) 2
                small_grown (Some ErrFragmented) small_garbage_wf small_grown_Put)
    as Hget.
  split; [exact small_garbage_wf|]. split; [exact small_grown_Put|].
  split; [exact (Hget 9)|exact (Hget 7)].
Defined.

(** [Delete_keeps_other_keys] at [small_two]: after [Delete(7)], hkey 8
    is found as before. *)
Lemma Delete_keeps_other_keys_witness :
  wf small_two
  ∧ Delete small_two 7 = Returned (state_after small_two (Delete small_two 7), None)
  ∧ Get (state_after small_two (Delete small_two 7)) 8
    = Returned (Some (payload 10 "066"%byte), None).
Proof.
  assert (Delete small_two 7
          = Returned (state_after small_two (Delete small_two 7), None)) as Hdel
    by (vm_compute; reflexivity).
  split; [exact small_two_wf|]. split; [exact Hdel|].
  rewrite (Delete_keeps_other_keys small_two 7 _ None small_two_wf Hdel 8) by done.
  vm_compute. reflexivity.
Defined.



(** [Fragmented_is_permanent] at [small_garbage]: after the put that
    returned [ErrFragmented] and a [Delete] of what it stored, [Export]
    still fails. *)
Lemma Fragmented_is_permanent_witness :
  Put 2 small_garbage 9 (payload 13 "066"%byte)
  = Returned (small_grown, Some ErrFragmented)
  ∧ Export (state_after small_grown (Delete small_grown 9))
    = Returned (None, Some ErrFragmented).
Proof.
  split; [exact small_grown_Put|].
  apply (Fragmented_is_permanent small_garbage small_grown
           (state_after small_grown (Delete small_grown 9))).
  - left. exists 2%nat, 9, (payload 13 "066"%byte). exact small_grown_Put.
  - apply (evolves_Delete small_grown 9
             (state_after small_grown (Delete small_grown 9)) None);
      [vm_compute; reflexivity|apply evolves_refl].
Defined.


(** [Check_agrees_with_Get] at [small]. *)
Lemma Check_agrees_with_Get_witness :
  tables small ≠ []
  ∧ Check small 7 = Returned true
  ∧ Check small 8 = Returned false.
Proof.
  assert (tables small ≠ []) as Hne by (vm_compute; discriminate).
  split; [exact Hne|]. split.
  - apply (Check_agrees_with_Get small 7 Hne). eexists. vm_compute. reflexivity.
  - apply (Check_agrees_with_Get small 8 Hne). vm_compute. reflexivity.
Defined.

(** [Fork_is_empty] at [small]. *)
Lemma Fork_is_empty_witness :
  reachable small
  ∧ ∃ fresh, Fork small = (Some fresh, None)
             ∧ tables fresh = [newTable 64]
             ∧ Get fresh 7 = Returned (None, Some ErrKeyNotFound).
Proof.
  split; [exact small_reachable|].
  destruct (Fork_is_empty small small_reachable)
    as (size & fresh & Hsize & Hfork & Htables & _ & _ & Hget).
  exists fresh. split; [exact Hfork|]. split; [|apply Hget].
  rewrite Htables. vm_compute in Hsize. by injection Hsize as <-.
Defined.


(** [Range_to_the_end] at [small_two], with a callback that lists the
    hkeys it is given: hkey 7 of the second table, then the two hkeys of
    the first, hkey 7 among them once more. *)
Lemma Range_to_the_end_witness :
  tables small_two ≠ []
  ∧ ∃ l, Range small_two (λ hkey (_ : option (list byte)) l, (true, l ++ [hkey])) []
         = Returned l
         ∧ l ≡ₚ [7; 7; 8] ∧ head l = Some 7.
Proof.
  assert (tables small_two ≠ []) as Hne by (vm_compute; discriminate).
  split; [exact Hne|].
  destruct (Range_to_the_end small_two
              (λ hkey (_ : option (list byte)) l, (true, l ++ [hkey])) [] Hne)
    as [Hrange _]; [done|].
  eexists. split; [exact Hrange|]. vm_compute. split; [|reflexivity].
  first [reflexivity | apply perm_skip, perm_swap | apply perm_skip; reflexivity].
Defined.

(** [Range_calls_Len_times] at [small_two]: three calls for two hkeys. *)
Lemma Range_calls_Len_times_witness :
  tables small_two ≠ []
  ∧ Range small_two (λ (_ : Z) (_ : option (list byte)) (n : Z), (true, n + 1)) 0
    = Returned 3.
Proof.
  assert (tables small_two ≠ []) as Hne by (vm_compute; discriminate).
  split; [exact Hne|].
  rewrite (Range_calls_Len_times small_two Hne). vm_compute. reflexivity.
Defined.

(** [Range_break_leaves_one_table] at [small_two]: the callback answers
    [false] and is called twice, once for each table. *)
Lemma Range_break_leaves_one_table_witness :
  tables small_two ≠ []
  ∧ ∃ l, Range small_two (λ hkey (_ : option (list byte)) l, (false, l ++ [hkey])) []
         = Returned l
         ∧ length l = 2%nat.
Proof.
  assert (tables small_two ≠ []) as Hne by (vm_compute; discriminate).
  split; [exact Hne|].
  destruct (Range_break_leaves_one_table small_two
              (λ hkey (_ : option (list byte)) l, (false, l ++ [hkey])) [] Hne)
    as [Hrange _]; [done|].
  eexists. split; [exact Hrange|]. vm_compute. reflexivity.
Defined.

(** [MatchOnKey_feeds_matching] at [small_two]: the expression 7 and a
    callback that answers [false] give one call, where [Range] makes two;
    the expression that does not compile gives none. *)
Lemma MatchOnKey_feeds_matching_witness :
  tables small_two ≠ []
  ∧ MatchOnKey small_two "7" (λ hkey (_ : option (list byte)) l, (false, l ++ [hkey])) []
    = Returned (None, [7])
  ∧ MatchOnKey small_two "(" (λ hkey (_ : option (list byte)) l, (false, l ++ [hkey])) []
    = Returned (Some (ErrOther "regexp: missing closing )"), []).
Proof.
  assert (tables small_two ≠ []) as Hne by (vm_compute; discriminate).
  split; [exact Hne|]. split.
  - rewrite (MatchOnKey_feeds_matching small_two "7" _ [] Hne). vm_compute. reflexivity.
  - rewrite (MatchOnKey_feeds_matching small_two "(" _ [] Hne). vm_compute. reflexivity.
Defined.

(** [Put_Len] at [small_garbage]: the third put of hkey 7 returns
    [ErrFragmented] and takes [Len] from 1 to 2. *)
Lemma Put_Len_witness :
  Put 2 small_garbage 7 (payload 13 "067"%byte)
  = Returned (small_again, Some ErrFragmented)
  ∧ Len small_garbage = 1
  ∧ Len small_again = 2.
Proof.
  split; [exact small_again_Put|]. split; [vm_compute; reflexivity|].
  destruct (Put_Len 2 small_garbage 7 (payload 13 "067"%byte) small_again
              (Some ErrFragmented) small_again_Put) as (t & _ & Hlen).
  rewrite Hlen. vm_compute. reflexivity.
Defined.

(** [Delete_Len] at [small_two]: [Delete(7)] takes [Len] from 3 to 2, and
    hkey 7 is still found. *)
Lemma Delete_Len_witness :
  Delete small_two 7 = Returned (state_after small_two (Delete small_two 7), None)
  ∧ Len small_two = 3
  ∧ Len (state_after small_two (Delete small_two 7)) = 2.
Proof.
  assert (Delete small_two 7
          = Returned (state_after small_two (Delete small_two 7), None)) as Hdel
    by (vm_compute; reflexivity).
  split; [exact Hdel|]. split; [vm_compute; reflexivity|].
  destruct (Delete_Len small_two 7 _ None Hdel) as [[_ Hlen]|[Hcheck _]].
  - rewrite Hlen. vm_compute. reflexivity.
  - vm_compute in Hcheck. discriminate.
Defined.

(** [Delete_single_copy] at [small]: one table, which holds hkey 7. *)
Lemma Delete_single_copy_witness :
  Get small 7 = Returned (Some (payload 3 "120"%byte), None)
  ∧ ∃ kv' err, Delete small 7 = Returned (kv', err)
               ∧ Get kv' 7 = Returned (None, Some ErrKeyNotFound).
Proof.
  split; [vm_compute; reflexivity|].
  apply (Delete_single_copy small 7 []
           (default (newTable 0) (tables small !! 0%nat)) []);
    [vm_compute; reflexivity|constructor|constructor].
Defined.

End MoreAtSamples.

Section MoreLockAtSamples.
Import dmap sample_node.

(** [lockKey_context_or_error] on the sample node: [Lock] on the idle
    node returns a context and [nil]; on the node that holds the lock it
    returns no context and [ErrLockNotAcquired]. *)
Lemma lockKey_context_or_error_witness :
  (∃ lc, fst (Lock 1 locks "k" 1000 idle) = Returned (Some lc, None))
  ∧ fst (Lock 1 locks "k" 1000 held) = Returned (None, Some ErrLockNotAcquired).
Proof.
  split.
  - destruct (Lock 1 locks "k" 1000 idle) as [[[lc err]| |] w'] eqn:Hlock;
      [|vm_compute in Hlock; discriminate..].
    destruct (lockKey_context_or_error 1 locks OpPutIf "k" nilTimeout 1000 idle
                lc err w' Hlock) as [Hiff _].
    assert (err = None) as -> by (vm_compute in Hlock; congruence).
    destruct (proj2 Hiff eq_refl) as [c ->]. by exists c.
  - vm_compute. reflexivity.
Defined.

End MoreLockAtSamples.
